(** * fgcugl: a model of the drawing layer of src/fgcugl.cpp

    The development embeds the routines of fgcugl.cpp that carry logic,
    setColor, drawPoint, drawCircle and drawText, together with the part
    of the fixed-function OpenGL context they touch, and proves the
    properties the specification states about them.  It then embeds
    drawQuad, getKey and the window routines, and proves further
    properties of all of them (X1 to X24).  drawLine is not modelled:
    the context below has no line attributes.

    Layout: the model of the source; two readings of GLfloat and a
    sample header; the observations and closed forms the statements are
    written with; the other routines; lemmas; the claims, in the order
    setColor, drawCircle, drawText; the further properties.

    Conventions.
    - A C++ [int], [unsigned int] or [GLubyte] value is a [Z].  The
      conversion to [GLubyte] and the truncation of [byte = byte << 1]
      to eight bits are written out.  The two [int] expressions of
      drawCircle that can leave the range of [int], sides + 2 and
      numberOfVertices * 2, go through [as_int]: above INT_MAX they
      overflow, which is undefined behaviour in C++ and a fault here.
      The statements on what drawCircle draws are therefore bounded by
      sides <= 2^30 - 3.
    - [GLfloat] is an abstract type [F] with the operations of the class
      [FloatArith], and of [FloatTrig] for cos, sin and M_PI.  The
      routines are written once, over any such [F].  What depends on the
      control flow alone is proved for every [F]; what depends on
      numeric values is proved for [F := R], the real numbers, that is
      with rounding idealised away.  Where [GLfloat] values decide the
      control flow, in the loops of drawText, the statements are made
      for integer coordinates of magnitude up to 2^24
      ([exact_text_range]), on which binary32 adds and compares without
      rounding.  A float division has no test of its divisor: it is
      [fdiv], whatever the divisor.
    - A loop over an [int] counter runs its body a number of times
      fixed on entry ([for_loop]).  A loop over a [GLfloat] counter
      keeps the test of the source and is given a budget of steps; the
      lemmas show that a budget above [size] is never exhausted over
      the reals.
    - Heap and stack arrays are lists of cells; a cell is [None] until
      it has been written.  An index out of range, the read of an
      unwritten cell, new[] of a negative length, an [int] overflow and
      an exhausted budget are faults of the [result] monad.  new[] of
      a non-negative length succeeds: memory is not bounded.
    - The OpenGL context is an explicit [GLState]: current colour, point
      size and smoothing, the vertex array and its pointer, the
      attribute stack (not bounded here), and the list of primitives
      issued so far, each with the colour and point attributes in
      effect when it was issued.  Every routine is a computation of the
      monad [GL]. *)

From Stdlib Require Import ZArith QArith Reals Lra Lia List String Ascii.
From stdpp Require Import base list.
From ExtLib Require Import Structures.Monad.
Import ListNotations.
#[local] Open Scope Z_scope.

Declare Scope gl_scope.
Delimit Scope gl_scope with gl.
Notation "x <- c ;; k" := (bind c (fun x => k))
  (at level 100, c at next level, right associativity) : gl_scope.
Notation "c ;; k" := (bind c (fun _ => k))
  (at level 100, right associativity) : gl_scope.
#[local] Open Scope gl_scope.

(** ** Faults and the [result] monad *)

Inductive fault : Type :=
| OutOfBounds (index : Z)   (* array access outside its extent *)
| Uninitialised (index : Z) (* read of a cell never written *)
| BadAlloc (size : Z)       (* new[] with a negative length *)
| IntOverflow (value : Z)   (* int expression above INT_MAX: undefined *)
| OutOfFuel.                (* loop budget of the model exhausted *)

Inductive result (A : Type) : Type :=
| Done (a : A)
| Fault (e : fault).
Arguments Done {A} a.
Arguments Fault {A} e.

#[export] Instance Monad_result : Monad result :=
  {| ret := fun _ a => Done a;
     bind := fun _ _ m k => match m with Done a => k a | Fault e => Fault e end |}.

(* for (int i = lo; i < hi; i++) body, on the loop-carried variables [s] *)
Fixpoint iterate {M : Type -> Type} {MM : Monad M} {S : Type}
    (n : nat) (i : Z) (body : Z -> S -> M S) (s : S) : M S :=
  match n with
  | O => ret s
  | Datatypes.S k => s' <- body i s ;; iterate k (i + 1) body s'
  end.

Definition for_loop {M : Type -> Type} {MM : Monad M} {S : Type}
    (lo hi : Z) (body : Z -> S -> M S) (s : S) : M S :=
  iterate (Z.to_nat (hi - lo)) lo body s.

(* t[i] for a constant table *)
Definition index {A : Type} (t : list A) (i : Z) : result A :=
  if (0 <=? i) && (i <? Z.of_nat (length t))
  then match t !! Z.to_nat i with
       | Some v => Done v
       | None => Fault (OutOfBounds i)
       end
  else Fault (OutOfBounds i).

(** ** int arithmetic *)

Definition INT_MAX : Z := 2 ^ 31 - 1.

(* the value of an int expression whose exact value is [z]: [z] itself
   up to INT_MAX; above it the expression overflows, which is undefined
   behaviour in C++ and a fault here.  The arguments of the routines
   are ints, and drawCircle only adds 2 to one and doubles a count that
   new[] has accepted: none of its expressions can fall below INT_MIN. *)
Definition as_int (z : Z) : result Z :=
  if z <=? INT_MAX then Done z else Fault (IntOverflow z).

(** ** Floating-point interface *)

Class FloatArith (F : Type) : Type :=
  { of_int : Z -> F;          (* int -> float conversion, float literals *)
    fadd : F -> F -> F;
    fsub : F -> F -> F;
    fmul : F -> F -> F;
    fdiv : F -> F -> F;
    fltb : F -> F -> bool }.

Class FloatTrig (F : Type) : Type :=
  { M_PI : F;
    fcos : F -> F;
    fsin : F -> F }.

(** ** Arrays *)

Abbreviation array A := (list (option A)) (only parsing).

Section Arrays.
Context {A : Type}.

(* new A[n] *)
Definition new_array (n : Z) : result (array A) :=
  if n <? 0 then Fault (BadAlloc n) else Done (replicate (Z.to_nat n) None).

(* A a[] = { v0, v1, ... } *)
Definition array_of (vs : list A) : array A := map Some vs.

(* a[i] = v *)
Definition store (a : array A) (i : Z) (v : A) : result (array A) :=
  if (0 <=? i) && (i <? Z.of_nat (length a))
  then Done (<[Z.to_nat i := Some v]> a)
  else Fault (OutOfBounds i).

(* a[i] *)
Definition load (a : array A) (i : Z) : result A :=
  if (0 <=? i) && (i <? Z.of_nat (length a))
  then match a !! Z.to_nat i with
       | Some (Some v) => Done v
       | _ => Fault (Uninitialised i)
       end
  else Fault (OutOfBounds i).
End Arrays.

(** ** The OpenGL context *)

Inductive Primitive : Type := GL_POINTS | GL_LINES | GL_QUADS | GL_TRIANGLE_FAN.

Section GLModel.
Context {F : Type} {FA : FloatArith F}.

(** One primitive batch handed to the rasteriser, with the pieces of
    context that decide how it is painted. *)
Record DrawCall : Type :=
  { dc_mode : Primitive;
    dc_vertices : list (F * F);
    dc_color : F * F * F;
    dc_point_size : F;
    dc_point_smooth : bool }.

Record GLState : Type :=
  { gl_color : F * F * F;                     (* glColor3f *)
    gl_point_size : F;                   (* glPointSize *)
    gl_point_smooth : bool;              (* GL_POINT_SMOOTH *)
    gl_vertex_array : bool;              (* GL_VERTEX_ARRAY client state *)
    gl_vertex_pointer : array F;         (* glVertexPointer(2, GL_FLOAT, 0, p) *)
    gl_attrib_stack : list (F * bool);   (* glPushAttrib(GL_POINT_BIT) *)
    gl_calls : list DrawCall }.          (* everything drawn so far *)

Definition GL (A : Type) : Type := GLState -> result (A * GLState).

#[export] Instance Monad_GL : Monad GL :=
  {| ret := fun _ a st => Done (a, st);
     bind := fun _ _ m k st =>
               match m st with
               | Done (a, st') => k a st'
               | Fault e => Fault e
               end |}.

(* a computation without access to the context *)
Definition lift {A : Type} (r : result A) : GL A :=
  fun st => match r with Done a => Done (a, st) | Fault e => Fault e end.

Definition modify (f : GLState -> GLState) : GL unit :=
  fun st => Done (tt, f st).

Definition glColor3f (r g b : F) : GL unit :=
  modify (fun st =>
    {| gl_color := (r, g, b);
       gl_point_size := gl_point_size st;
       gl_point_smooth := gl_point_smooth st;
       gl_vertex_array := gl_vertex_array st;
       gl_vertex_pointer := gl_vertex_pointer st;
       gl_attrib_stack := gl_attrib_stack st;
       gl_calls := gl_calls st |}).

Definition glPointSize (s : F) : GL unit :=
  modify (fun st =>
    {| gl_color := gl_color st;
       gl_point_size := s;
       gl_point_smooth := gl_point_smooth st;
       gl_vertex_array := gl_vertex_array st;
       gl_vertex_pointer := gl_vertex_pointer st;
       gl_attrib_stack := gl_attrib_stack st;
       gl_calls := gl_calls st |}).

(* glEnable(GL_POINT_SMOOTH) / glDisable(GL_POINT_SMOOTH) *)
Definition glPointSmooth (on : bool) : GL unit :=
  modify (fun st =>
    {| gl_color := gl_color st;
       gl_point_size := gl_point_size st;
       gl_point_smooth := on;
       gl_vertex_array := gl_vertex_array st;
       gl_vertex_pointer := gl_vertex_pointer st;
       gl_attrib_stack := gl_attrib_stack st;
       gl_calls := gl_calls st |}).

(* glEnableClientState(GL_VERTEX_ARRAY) / glDisableClientState(GL_VERTEX_ARRAY) *)
Definition glClientState (on : bool) : GL unit :=
  modify (fun st =>
    {| gl_color := gl_color st;
       gl_point_size := gl_point_size st;
       gl_point_smooth := gl_point_smooth st;
       gl_vertex_array := on;
       gl_vertex_pointer := gl_vertex_pointer st;
       gl_attrib_stack := gl_attrib_stack st;
       gl_calls := gl_calls st |}).

Definition glVertexPointer (p : array F) : GL unit :=
  modify (fun st =>
    {| gl_color := gl_color st;
       gl_point_size := gl_point_size st;
       gl_point_smooth := gl_point_smooth st;
       gl_vertex_array := gl_vertex_array st;
       gl_vertex_pointer := p;
       gl_attrib_stack := gl_attrib_stack st;
       gl_calls := gl_calls st |}).

(* glPushAttrib(GL_POINT_BIT): saves the point size and the smoothing flag *)
Definition glPushAttrib : GL unit :=
  modify (fun st =>
    {| gl_color := gl_color st;
       gl_point_size := gl_point_size st;
       gl_point_smooth := gl_point_smooth st;
       gl_vertex_array := gl_vertex_array st;
       gl_vertex_pointer := gl_vertex_pointer st;
       gl_attrib_stack := (gl_point_size st, gl_point_smooth st) :: gl_attrib_stack st;
       gl_calls := gl_calls st |}).

(* glPopAttrib(): restores what the matching push saved; on an empty
   stack the context is left as it is *)
Definition glPopAttrib : GL unit :=
  modify (fun st =>
    match gl_attrib_stack st with
    | [] => st
    | (size, smooth) :: saved =>
        {| gl_color := gl_color st;
           gl_point_size := size;
           gl_point_smooth := smooth;
           gl_vertex_array := gl_vertex_array st;
           gl_vertex_pointer := gl_vertex_pointer st;
           gl_attrib_stack := saved;
           gl_calls := gl_calls st |}
    end).

(* the [count] two-component vertices that start at vertex [first] *)
Fixpoint fetch (p : array F) (first : Z) (count : nat) : result (list (F * F)) :=
  match count with
  | O => ret []
  | S k =>
      vx <- load p (2 * first) ;;
      vy <- load p (2 * first + 1) ;;
      vs <- fetch p (first + 1) k ;;
      ret ((vx, vy) :: vs)
  end.

(* glDrawArrays(mode, first, count); nothing is generated while the
   vertex array is disabled, nor for a negative count (GL_INVALID_VALUE) *)
Definition glDrawArrays (mode : Primitive) (first count : Z) : GL unit :=
  fun st =>
    if gl_vertex_array st && (0 <=? count) then
      match fetch (gl_vertex_pointer st) first (Z.to_nat count) with
      | Done vs =>
          Done (tt,
            {| gl_color := gl_color st;
               gl_point_size := gl_point_size st;
               gl_point_smooth := gl_point_smooth st;
               gl_vertex_array := gl_vertex_array st;
               gl_vertex_pointer := gl_vertex_pointer st;
               gl_attrib_stack := gl_attrib_stack st;
               gl_calls := gl_calls st ++
                 [ {| dc_mode := mode;
                      dc_vertices := vs;
                      dc_color := gl_color st;
                      dc_point_size := gl_point_size st;
                      dc_point_smooth := gl_point_smooth st |} ] |})
      | Fault e => Fault e
      end
    else Done (tt, st).

(** ** setColor (src/fgcugl.cpp, 388-394) *)

Definition channels (color : Z) : F * F * F :=
  let red := fdiv (of_int (Z.land (Z.shiftr color 16) 0xFF)) (of_int 255) in
  let green := fdiv (of_int (Z.land (Z.shiftr color 8) 0xFF)) (of_int 255) in
  let blue := fdiv (of_int (Z.land color 0xFF)) (of_int 255) in
  (red, green, blue).

Definition setColor (color : Z) : GL unit :=
  let '(red, green, blue) := channels color in
  glColor3f red green blue.

(** ** What the routines take from outside src/

    [fgcugl.h] is not part of the sources at hand.  It declares the
    glyph table and the default arguments of drawPoint, which drawText
    relies on; they are parameters of the model, as is the signedness
    of [char], which the C++ implementation chooses. *)

Class Header : Type :=
  { CHARACTERS : list (list Z);   (* 8 row bytes per glyph, from code 32 on *)
    White : Z;                    (* drawPoint: "color - fill color (default=White)" *)
    smooth_default : bool;        (* drawPoint: "smooth ... (default=true)" *)
    char_is_signed : bool }.

Context {H : Header}.

(** ** drawPoint (src/fgcugl.cpp, 210-226) *)

Definition drawPoint (x y size : F) (color : Z) (smooth : bool) : GL unit :=
  let pointVertex := array_of [x; y] in
  glPushAttrib ;;
  (if smooth then glPointSmooth true else ret tt) ;;
  glClientState true ;;
  glPointSize size ;;
  glVertexPointer pointVertex ;;
  setColor color ;;
  glDrawArrays GL_POINTS 0 1 ;;
  glClientState false ;;
  (if smooth then glPointSmooth false else ret tt) ;;
  glPopAttrib.

(** ** drawCircle (src/fgcugl.cpp, 275-310) *)

Section Circle.
Context {FT : FloatTrig F}.

(* the body of the loop of lines 287-291; i and sides are converted to
   float, and the quotient is a float division: nothing tests the
   divisor *)
Definition rim_body (x y radius : F) (sides : Z) (doublePi : F) (i : Z)
    (XY : array F * array F) : result (array F * array F) :=
  let '(circleVerticesX, circleVerticesY) := XY in
  circleVerticesX <-
    store circleVerticesX i
      (fadd x (fmul radius (fcos (fdiv (fmul (of_int i) doublePi) (of_int sides))))) ;;
  circleVerticesY <-
    store circleVerticesY i
      (fadd y (fmul radius (fsin (fdiv (fmul (of_int i) doublePi) (of_int sides))))) ;;
  ret (circleVerticesX, circleVerticesY).

(* the body of the loop of lines 295-299; i * 2 + 1 is below
   numberOfVertices * 2, which is an int when the loop is reached *)
Definition interleave_body (circleVerticesX circleVerticesY : array F) (i : Z)
    (allCircleVertices : array F) : result (array F) :=
  vx <- load circleVerticesX i ;;
  allCircleVertices <- store allCircleVertices (i * 2) vx ;;
  vy <- load circleVerticesY i ;;
  store allCircleVertices (i * 2 + 1) vy.

(* lines 279-299: the vertex data handed to OpenGL *)
Definition circleVertices (x y radius : F) (sides numberOfVertices : Z) :
    result (array F) :=
  let doublePi := fmul (of_int 2) M_PI in
  circleVerticesX <- new_array numberOfVertices ;;
  circleVerticesY <- new_array numberOfVertices ;;
  circleVerticesX <- store circleVerticesX 0 x ;;
  circleVerticesY <- store circleVerticesY 0 y ;;
  XY <- for_loop 1 numberOfVertices (rim_body x y radius sides doublePi)
          (circleVerticesX, circleVerticesY) ;;
  let '(circleVerticesX, circleVerticesY) := XY in
  twice <- as_int (numberOfVertices * 2) ;;
  allCircleVertices <- new_array twice ;;
  for_loop 0 numberOfVertices (interleave_body circleVerticesX circleVerticesY)
    allCircleVertices.

Definition drawCircle (x y radius : F) (color : Z) (sides : Z) : GL unit :=
  numberOfVertices <- lift (as_int (sides + 2)) ;;
  allCircleVertices <- lift (circleVertices x y radius sides numberOfVertices) ;;
  glClientState true ;;
  glVertexPointer allCircleVertices ;;
  setColor color ;;
  glDrawArrays GL_TRIANGLE_FAN 0 numberOfVertices ;;
  glClientState false.

End Circle.

(** ** drawText (src/fgcugl.cpp, 323-355) *)

(* the value of text[c] as an int *)
Definition char_code (ch : ascii) : Z :=
  let n := Z.of_nat (nat_of_ascii ch) in
  if char_is_signed && (128 <=? n) then n - 256 else n.

(* CHARACTERS[text[c] - 32][i], converted to GLubyte *)
Definition glyph_row (ch : ascii) (i : Z) : result Z :=
  glyph <- index CHARACTERS (char_code ch - 32) ;;
  row <- index glyph i ;;
  ret (row mod 256).

(* for (GLfloat xs = xpos; xs < xpos + size; xs++) drawPoint(xs, ys, 1); *)
Fixpoint xs_loop (fuel : nat) (xs xpos ys : F) (size : Z) : GL unit :=
  match fuel with
  | O => lift (Fault OutOfFuel)
  | S k =>
      if fltb xs (fadd xpos (of_int size))
      then drawPoint xs ys (of_int 1) White smooth_default ;;
           xs_loop k (fadd xs (of_int 1)) xpos ys size
      else ret tt
  end.

(* for (GLfloat ys = ypos; ys < ypos + size; ys++) { the xs loop } ;
   [budget] is what each inner loop may spend *)
Fixpoint ys_loop (budget fuel : nat) (ys xpos ypos : F) (size : Z) : GL unit :=
  match fuel with
  | O => lift (Fault OutOfFuel)
  | S k =>
      if fltb ys (fadd ypos (of_int size))
      then xs_loop budget xpos xpos ys size ;;
           ys_loop budget k (fadd ys (of_int 1)) xpos ypos size
      else ret tt
  end.

(* the body of the loop over the bits b, lines 338-349 *)
Definition bit_body (budget : nat) (ypos : F) (size : Z) (b : Z)
    (s : Z * F) : GL (Z * F) :=
  let '(byte, xpos) := s in
  (if negb (Z.land byte 0x80 =? 0)
   then ys_loop budget budget ypos xpos ypos size
   else ret tt) ;;
  ret (Z.shiftl byte 1 mod 256, fadd xpos (of_int size)).

(* the body of the loop over the rows i, lines 334-351; [xpos] is
   unassigned until the first row has been entered *)
Definition row_body (budget : nat) (ch : ascii) (x : F) (size : Z) (i : Z)
    (s : option F * F) : GL (option F * F) :=
  let '(_, ypos) := s in
  let xpos := x in
  byte <- lift (glyph_row ch i) ;;
  s <- for_loop 0 8 (bit_body budget ypos size) (byte, xpos) ;;
  let '(_, xpos) := s in
  ret (Some xpos, fsub ypos (of_int size)).

(* reading a local variable *)
Definition local (v : option F) : result F :=
  match v with Some a => Done a | None => Fault (Uninitialised 0) end.

(* the loop over the characters, lines 329-354 *)
Fixpoint text_loop (budget : nat) (text : string) (x y : F) (xpos : option F)
    (size : Z) : GL unit :=
  match text with
  | EmptyString => ret tt
  | String ch rest =>
      let ypos := fadd y (of_int 8) in
      s <- for_loop 0 8 (row_body budget ch x size) (xpos, ypos) ;;
      let '(xpos, _) := s in
      x <- lift (local xpos) ;;
      text_loop budget rest x y xpos size
  end.

Definition drawText (budget : nat) (x y : F) (text : string) (size : Z)
    (color : Z) : GL unit :=
  setColor color ;;
  text_loop budget text x y None size.

End GLModel.

(** ** Two readings of GLfloat *)

(** Exact real arithmetic: the reading in which numeric facts are
    proved.  It agrees with binary32 on the integers of magnitude up to
    2^24 ([exact24]), and rounds nowhere else either. *)
#[export] Instance R_arith : FloatArith R :=
  {| of_int := IZR;
     fadd := Rplus;
     fsub := Rminus;
     fmul := Rmult;
     fdiv := Rdiv;
     fltb := fun a b => if Rlt_dec a b then true else false |}.

#[export] Instance R_trig : FloatTrig R :=
  {| M_PI := PI; fcos := cos; fsin := sin |}.

(** Exact rational arithmetic in lowest terms: a reading that computes,
    used to run the routines on sample inputs. *)
#[export] Instance Q_arith : FloatArith Q :=
  {| of_int := fun n => inject_Z n;
     fadd := fun a b => Qred (Qplus a b);
     fsub := fun a b => Qred (Qminus a b);
     fmul := fun a b => Qred (Qmult a b);
     fdiv := fun a b => Qred (Qdiv a b);
     fltb := fun a b =>
       match Qcompare a b with Lt => true | _ => false end |}.

(** ** A sample header, for running the routines *)

Definition blank : list Z := [0; 0; 0; 0; 0; 0; 0; 0].
Definition bang : list Z := [0x30; 0x78; 0x78; 0x30; 0x30; 0x00; 0x30; 0x00].
Definition letter_A : list Z := [0x30; 0x78; 0xCC; 0xCC; 0xFC; 0xCC; 0xCC; 0x00].

(* 95 glyphs, codes 32 to 126; only '!' and 'A' are inked *)
Definition sample_table : list (list Z) :=
  [blank; bang] ++ replicate 31 blank ++ [letter_A] ++ replicate 61 blank.

Definition sample_header : Header :=
  {| CHARACTERS := sample_table;
     White := 0xFFFFFF;
     smooth_default := true;
     char_is_signed := true |}.

Definition initial_state {F : Type} {FA : FloatArith F} : GLState (F:=F) :=
  {| gl_color := (of_int 1, of_int 1, of_int 1);
     gl_point_size := of_int 1;
     gl_point_smooth := false;
     gl_vertex_array := false;
     gl_vertex_pointer := [];
     gl_attrib_stack := [];
     gl_calls := [] |}.

(** * Observations and closed forms

    The definitions of this part are not taken from the source: they
    name what a run leaves in the context and give the vertices of the
    two routines in closed form, as the specification words them.  The
    lemmas of the second part prove that the routines compute them. *)

(* the arithmetic [FA] with another function in the place of its division *)
Definition with_division {F : Type} (FA : FloatArith F) (fdiv' : F -> F -> F) :
    FloatArith F :=
  {| of_int := of_int;
     fadd := fadd;
     fsub := fsub;
     fmul := fmul;
     fdiv := fdiv';
     fltb := fltb |}.

(* a division on the reals that answers [d] for a zero divisor *)
Definition Rdiv_or (d a b : R) : R :=
  if Req_dec_T b 0 then d else (a / b)%R.

Section Observations.
Context {F : Type} {FA : FloatArith F} {H : Header}.

Definition with_color (c : F * F * F) (st : GLState) : GLState :=
  {| gl_color := c;
     gl_point_size := gl_point_size st;
     gl_point_smooth := gl_point_smooth st;
     gl_vertex_array := gl_vertex_array st;
     gl_vertex_pointer := gl_vertex_pointer st;
     gl_attrib_stack := gl_attrib_stack st;
     gl_calls := gl_calls st |}.

(* the calls issued between two contexts *)
Definition issued (st st' : @GLState F) : list (@DrawCall F) :=
  drop (length (gl_calls st)) (gl_calls st').

(* the vertices a computation sends to the rasteriser when started in [st] *)
Definition drawn (m : GL unit) (st : GLState) : result (list (F * F)) :=
  match m st with
  | Done (_, st') => Done (concat (map dc_vertices (issued st st')))
  | Fault e => Fault e
  end.

(* the context after a point has been drawn at (x, y) *)
Definition after_point (x y size : F) (color : Z) (smooth : bool)
    (st : GLState) : GLState :=
  {| gl_color := channels color;
     gl_point_size := gl_point_size st;
     gl_point_smooth := gl_point_smooth st;
     gl_vertex_array := false;
     gl_vertex_pointer := array_of [x; y];
     gl_attrib_stack := gl_attrib_stack st;
     gl_calls := gl_calls st ++
       [ {| dc_mode := GL_POINTS;
            dc_vertices := [(x, y)];
            dc_color := channels color;
            dc_point_size := size;
            dc_point_smooth := if smooth then true else gl_point_smooth st |} ] |}.

Definition flatten (vs : list (F * F)) : list F :=
  concat (map (fun v => [fst v; snd v]) vs).

(** Every change drawText makes to the context after its first line
    goes through [drawPoint (xs, ys, 1)] with the two default
    arguments: the context after the loops is [paint pts], for [pts]
    the centres of the points in drawing order. *)

Definition paint (pts : list (F * F)) (st : GLState) : GLState :=
  fold_left
    (fun st p => after_point (fst p) (snd p) (of_int 1) White smooth_default st)
    pts st.

(* the call issued for one point of the text *)
Definition text_point (ambient_smooth : bool) (p : F * F) : DrawCall :=
  {| dc_mode := GL_POINTS;
     dc_vertices := [p];
     dc_color := channels White;
     dc_point_size := of_int 1;
     dc_point_smooth := if smooth_default then true else ambient_smooth |}.

Definition paints {A : Type} (m : GL A) (a : A) (pts : list (F * F)) : Prop :=
  forall st, m st = Done (a, paint pts st).

(** A computation is [uniform] when its outcome does not depend on the
    context it starts from: either it returns one value after painting
    one list of points, or it stops with one fault. [ok] bounds the
    faults, [Q] the value. *)
Definition uniform {A : Type} (ok : fault -> Prop) (Q : A -> Prop) (m : GL A) : Prop :=
  (exists a pts, Q a /\ paints m a pts) \/
  (exists e, ok e /\ forall st, m st = Fault e).

(* the faults of reading the glyph of [ch] are among those [ok] allows *)
Definition glyph_ok (ok : fault -> Prop) (ch : ascii) : Prop :=
  forall i e, 0 <= i < 8 -> glyph_row ch i = Fault e -> ok e.

(* the row bytes of the glyph of a character *)
Definition glyph_byte (ch : ascii) (r : nat) : Z :=
  match glyph_row ch (Z.of_nat r) with Done byte => byte | Fault _ => 0 end.

(* all eight rows of the glyph of [ch] are inside the table *)
Definition readable (ch : ascii) : Prop :=
  forall r, (r < 8)%nat -> exists byte, glyph_row ch (Z.of_nat r) = Done byte.

(** Modelled from the spec: the glyph table [CHARACTERS] is declared in
    fgcugl.h, which is not under src/.  The specification describes it
    as one fixed 8-row bitmap per character, indexed by the ASCII code
    minus 32 and covering the printable range, codes 32 to 126: 95
    glyphs of 8 rows. *)
Definition well_formed_table : Prop :=
  length CHARACTERS = 95%nat /\ Forall (fun glyph => length glyph = 8%nat) CHARACTERS.

Section Fan.
Context {FT : FloatTrig F}.
Variables (x y radius : F) (sides : Z).

(* rim sample i of the specification: angle = i * 2pi / sides *)
Definition rim_vertex (i : Z) : F * F :=
  let angle := fdiv (fmul (of_int i) (fmul (of_int 2) M_PI)) (of_int sides) in
  (fadd x (fmul radius (fcos angle)), fadd y (fmul radius (fsin angle))).

(* the hub followed by the rim samples 1 .. k *)
Definition fan_upto (k : nat) : list (F * F) :=
  (x, y) :: map (fun j => rim_vertex (1 + Z.of_nat j)) (seq 0 k).

(* the triangle fan of the specification *)
Definition fan : list (F * F) := fan_upto (Z.to_nat (sides + 1)).

(* the context after the fan has been drawn *)
Definition after_circle (color : Z) (st : GLState) : GLState :=
  {| gl_color := channels color;
     gl_point_size := gl_point_size st;
     gl_point_smooth := gl_point_smooth st;
     gl_vertex_array := false;
     gl_vertex_pointer := array_of (flatten fan);
     gl_attrib_stack := gl_attrib_stack st;
     gl_calls := gl_calls st ++
       [ {| dc_mode := GL_TRIANGLE_FAN;
            dc_vertices := fan;
            dc_color := channels color;
            dc_point_size := gl_point_size st;
            dc_point_smooth := gl_point_smooth st |} ] |}.

End Fan.

End Observations.

(* the byte after k executions of byte = byte << 1 *)
Definition shifted (byte : Z) (k : nat) : Z :=
  Nat.iter k (fun b => (Z.shiftl b 1 mod 256)) byte.

Section RealPoints.
Context {H : Header}.
Variable size : Z.
#[local] Open Scope R_scope.

(* one row of a block: the points (xpos + j, ys) for j below size *)
Definition block_row (xpos ys : R) : list (R * R) :=
  map (fun j => (xpos + INR j, ys)) (seq 0 (Z.to_nat size)).

(* a block: rows ys = ypos + i for i below size, lowest first *)
Definition block (xpos ypos : R) : list (R * R) :=
  flat_map (fun i => block_row xpos (ypos + INR i)) (seq 0 (Z.to_nat size)).

(* row [byte] of a glyph whose cell starts at x, drawn at height ypos:
   column b is inked when bit 7 - b is set *)
Definition row_points (byte : Z) (x ypos : R) : list (R * R) :=
  flat_map
    (fun b => if Z.testbit byte (7 - Z.of_nat b)
              then block (x + INR b * IZR size) ypos
              else [])
    (seq 0 8).

(* the glyph of [ch] with its cell starting at x: row r at height y + 8 - r * size *)
Definition glyph_points (ch : ascii) (x y : R) : list (R * R) :=
  flat_map
    (fun r => row_points (glyph_byte ch r) x (y + 8 - INR r * IZR size))
    (seq 0 8).

(* the points of a string whose first cell starts at x *)
Fixpoint text_points (text : string) (x y : R) : list (R * R) :=
  match text with
  | EmptyString => []
  | String ch rest => glyph_points ch x y ++ text_points rest (x + 8 * IZR size) y
  end.

(* Euclidean distance in the plane *)
Definition distance (p q : R * R) : R :=
  sqrt ((fst p - fst q) ^ 2 + (snd p - snd q) ^ 2).

End RealPoints.

(** ** Where the real reading of GLfloat is exact

    GLfloat is binary32.  It holds every integer of magnitude up to
    2^24, and adds, subtracts and compares two of them without rounding
    as long as the result is such an integer again.  drawText steps its
    float loop counters by 1 and by size: started at integer
    coordinates, and as long as every value it computes stays in that
    range, it computes in binary32 what it computes over the reals.
    Beyond it the counters stop advancing and the loops of the source
    do not behave as the loops of the real reading; the statements on
    what drawText draws are therefore made inside the range. *)

Definition exact24 (z : Z) : Prop := - 2 ^ 24 <= z <= 2 ^ 24.

(* the values drawText (x, y, text, size) computes for [len] characters:
   xpos, xs and the bound xpos + size run from x to x + 8 size len;
   ypos, ys and the bound ypos + size from y + 8 - 8 size to y + 8 + size *)
Definition exact_text_range (x y size : Z) (len : nat) : Prop :=
  0 <= size /\
  exact24 x /\ exact24 (x + 8 * size * Z.of_nat len) /\
  exact24 y /\ exact24 (y + 8 - 8 * size) /\ exact24 (y + 8 + size).

(** * The other routines of fgcugl.cpp *)

(** ** drawQuad (src/fgcugl.cpp, 179-195) *)

Section Quad.
Context {F : Type} {FA : FloatArith F}.

Definition drawQuad (x y width height : F) (color : Z) : GL unit :=
  let vertices :=
    array_of [ x; y;                           (* bottom left corner *)
               fadd x width; y;                (* bottom right corner *)
               fadd x width; fadd y height;    (* top right corner *)
               x; fadd y height ] in           (* top left corner *)
  glClientState true ;;
  glVertexPointer vertices ;;
  setColor color ;;
  glDrawArrays GL_QUADS 0 4 ;;
  glClientState false.

(* the four corners in the order of the source *)
Definition quad_corners (x y width height : F) : list (F * F) :=
  [ (x, y); (fadd x width, y); (fadd x width, fadd y height); (x, fadd y height) ].

(* the context after the quad has been drawn *)
Definition after_quad (x y width height : F) (color : Z) (st : GLState) : GLState :=
  {| gl_color := channels color;
     gl_point_size := gl_point_size st;
     gl_point_smooth := gl_point_smooth st;
     gl_vertex_array := false;
     gl_vertex_pointer :=
       array_of [ x; y; fadd x width; y; fadd x width; fadd y height; x; fadd y height ];
     gl_attrib_stack := gl_attrib_stack st;
     gl_calls := gl_calls st ++
       [ {| dc_mode := GL_QUADS;
            dc_vertices := quad_corners x y width height;
            dc_color := channels color;
            dc_point_size := gl_point_size st;
            dc_point_smooth := gl_point_smooth st |} ] |}.

End Quad.

(* twice the signed area of a polygon given by its vertices in order
   (shoelace formula); positive when they run counter-clockwise *)
Definition shoelace (vs : list (R * R)) : R :=
  match vs with
  | [] => 0%R
  | v0 :: _ =>
      (fix go (l : list (R * R)) : R :=
         match l with
         | [] => 0%R
         | p :: l' =>
             let q := match l' with [] => v0 | q :: _ => q end in
             (fst p * snd q - fst q * snd p + go l')%R
         end) vs
  end.

(** ** getKey (src/fgcugl.cpp, 118-144) *)

(* the keys getKey asks for *)
Inductive Key : Type :=
| GLFW_KEY_ESCAPE | GLFW_KEY_X | GLFW_KEY_W | GLFW_KEY_S | GLFW_KEY_A | GLFW_KEY_D
| GLFW_KEY_UP | GLFW_KEY_DOWN | GLFW_KEY_LEFT | GLFW_KEY_RIGHT.

(* glfw3.h: the key states *)
Definition GLFW_RELEASE : Z := 0.
Definition GLFW_PRESS : Z := 1.

(* a character literal as an unsigned char *)
Definition char_literal (c : ascii) : Z := Z.of_nat (nat_of_ascii c).

(* [glfwGetKey k] is what glfwGetKey(s_window, k) returns *)
Definition getKey (glfwGetKey : Key -> Z) : Z :=
  let key := 0 in
  if glfwGetKey GLFW_KEY_ESCAPE =? GLFW_PRESS then 0x1B
  else if glfwGetKey GLFW_KEY_X =? GLFW_PRESS then char_literal "X"
  else if glfwGetKey GLFW_KEY_W =? GLFW_PRESS then char_literal "W"
  else if glfwGetKey GLFW_KEY_S =? GLFW_PRESS then char_literal "S"
  else if glfwGetKey GLFW_KEY_A =? GLFW_PRESS then char_literal "A"
  else if glfwGetKey GLFW_KEY_D =? GLFW_PRESS then char_literal "D"
  else if glfwGetKey GLFW_KEY_UP =? GLFW_PRESS then char_literal "W"
  else if glfwGetKey GLFW_KEY_DOWN =? GLFW_PRESS then char_literal "S"
  else if glfwGetKey GLFW_KEY_LEFT =? GLFW_PRESS then char_literal "A"
  else if glfwGetKey GLFW_KEY_RIGHT =? GLFW_PRESS then char_literal "D"
  else key.

(* the docstring of getKey: "order of precedence is:
   ESC,X,W,S,A,D,UP,DOWN,LEFT,RIGHT,NONE" *)
Definition precedence : list Key :=
  [ GLFW_KEY_ESCAPE; GLFW_KEY_X; GLFW_KEY_W; GLFW_KEY_S; GLFW_KEY_A; GLFW_KEY_D;
    GLFW_KEY_UP; GLFW_KEY_DOWN; GLFW_KEY_LEFT; GLFW_KEY_RIGHT ].

(* the code reported for a key *)
Definition key_code (k : Key) : Z :=
  match k with
  | GLFW_KEY_ESCAPE => 0x1B
  | GLFW_KEY_X => char_literal "X"
  | GLFW_KEY_W | GLFW_KEY_UP => char_literal "W"
  | GLFW_KEY_S | GLFW_KEY_DOWN => char_literal "S"
  | GLFW_KEY_A | GLFW_KEY_LEFT => char_literal "A"
  | GLFW_KEY_D | GLFW_KEY_RIGHT => char_literal "D"
  end.

Definition is_arrow (k : Key) : bool :=
  match k with
  | GLFW_KEY_UP | GLFW_KEY_DOWN | GLFW_KEY_LEFT | GLFW_KEY_RIGHT => true
  | _ => false
  end.

(* the keyboard with the arrow keys released *)
Definition without_arrows (glfwGetKey : Key -> Z) (k : Key) : Z :=
  if is_arrow k then GLFW_RELEASE else glfwGetKey k.

(** ** The window routines: openWindow, windowClosing, windowPaint,
       getTime, getEvents, cleanup and framebuffer_size_callback
       (src/fgcugl.cpp, 33-165 and 371-376)

    These routines only talk to GLFW and OpenGL.  They are embedded as
    the sequence of calls they make, given what glfwInit and
    glfwCreateWindow answer; a window handle is a number, NULL is
    [None]. *)

Inductive MatrixMode : Type := GL_PROJECTION | GL_MODELVIEW.

Inductive Call : Type :=
| GlfwInit (ok : bool)
| GlfwCreateWindow (width height : Z) (title : string) (window : option nat)
| GlfwTerminate
| GlfwSetFramebufferSizeCallback (window : nat)
| GlfwMakeContextCurrent (window : nat)
| GlfwWindowShouldClose (window : option nat)
| GlfwSwapBuffers (window : option nat)
| GlfwGetTime
| GlfwPollEvents
| GlViewport (x y width height : Z)
| GlMatrixMode (mode : MatrixMode)
| GlLoadIdentity
| GlOrtho (left right bottom top near far : Z).

(* returns the calls made and the value of the static s_window afterwards *)
Definition openWindow (glfwInit : bool) (glfwCreateWindow : option nat)
    (width height : Z) (title : string) (s_window : option nat)
  : list Call * option nat :=
  if negb glfwInit
  then ([GlfwInit glfwInit], s_window)
  else
    let s_window := glfwCreateWindow in
    match s_window with
    | None =>
        ([GlfwInit glfwInit;
          GlfwCreateWindow width height title glfwCreateWindow;
          GlfwTerminate], s_window)
    | Some window =>
        ([GlfwInit glfwInit;
          GlfwCreateWindow width height title glfwCreateWindow;
          GlfwSetFramebufferSizeCallback window;
          GlfwMakeContextCurrent window;
          GlViewport 0 0 width height;
          GlMatrixMode GL_PROJECTION;
          GlLoadIdentity;
          GlOrtho 0 width 0 height 0 1;
          GlMatrixMode GL_MODELVIEW;
          GlLoadIdentity], s_window)
    end.

Definition framebuffer_size_callback (window : nat) (width height : Z) : list Call :=
  [GlViewport 0 0 width height].

(* the calls of the routines that pass one call through; what GLFW
   returns is returned as it is *)
Definition windowClosing (s_window : option nat) : list Call :=
  [GlfwWindowShouldClose s_window].

Definition windowPaint (s_window : option nat) : list Call :=
  [GlfwSwapBuffers s_window].

Definition getTime : list Call := [GlfwGetTime].

Definition getEvents : list Call := [GlfwPollEvents].

Definition cleanup : list Call := [GlfwTerminate].

(* is the handle that of a window alive *)
Definition alive (windows : list nat) (window : option nat) : bool :=
  match window with
  | Some w => existsb (Nat.eqb w) windows
  | None => false
  end.

Definition is_gl_call (c : Call) : bool :=
  match c with
  | GlViewport _ _ _ _ | GlMatrixMode _ | GlLoadIdentity | GlOrtho _ _ _ _ _ _ => true
  | _ => false
  end.

(* How the two libraries may be called: GLFW only between a successful
   glfwInit and glfwTerminate (glfwInit and glfwTerminate at any time),
   a window only once it has been created, OpenGL only while a context
   is current.  The state is: GLFW initialised, the windows alive, the
   window whose context is current. *)
Fixpoint well_ordered (ready : bool) (windows : list nat) (current : option nat)
    (calls : list Call) : bool :=
  match calls with
  | [] => true
  | c :: rest =>
      match c with
      | GlfwInit ok => well_ordered (ready || ok) windows current rest
      | GlfwCreateWindow _ _ _ w =>
          ready &&
          well_ordered ready (match w with Some n => n :: windows | None => windows end)
            current rest
      | GlfwTerminate => well_ordered false [] None rest
      | GlfwSetFramebufferSizeCallback w =>
          ready && existsb (Nat.eqb w) windows &&
          well_ordered ready windows current rest
      | GlfwMakeContextCurrent w =>
          ready && existsb (Nat.eqb w) windows &&
          well_ordered ready windows (Some w) rest
      | GlfwWindowShouldClose w | GlfwSwapBuffers w =>
          ready && alive windows w && well_ordered ready windows current rest
      | GlfwGetTime | GlfwPollEvents =>
          ready && well_ordered ready windows current rest
      | GlViewport _ _ _ _ | GlMatrixMode _ | GlLoadIdentity
      | GlOrtho _ _ _ _ _ _ =>
          match current with
          | Some _ => well_ordered ready windows current rest
          | None => false
          end
      end
  end.

(** The part of an OpenGL context the calls above act on, over the
    reals, with the transformation of a vertex to window coordinates
    as the OpenGL specification gives it. *)

Record View : Type :=
  { viewport : Z * Z * Z * Z;          (* x, y, width, height *)
    matrix_mode : MatrixMode;
    projection : list (list R);        (* 4 rows of 4 *)
    modelview : list (list R) }.

Definition identity : list (list R) :=
  [ [1; 0; 0; 0]; [0; 1; 0; 0]; [0; 0; 1; 0]; [0; 0; 0; 1] ]%R.

Definition ortho (l r b t n f : R) : list (list R) :=
  [ [2 / (r - l); 0; 0; - ((r + l) / (r - l))];
    [0; 2 / (t - b); 0; - ((t + b) / (t - b))];
    [0; 0; - (2 / (f - n)); - ((f + n) / (f - n))];
    [0; 0; 0; 1] ]%R.

Definition dot (u v : list R) : R :=
  fold_right Rplus 0%R (map (fun p => (fst p * snd p)%R) (combine u v)).

Definition column (m : list (list R)) (j : nat) : list R :=
  map (fun row => nth j row 0%R) m.

Definition mmul (a b : list (list R)) : list (list R) :=
  map (fun row => map (fun j => dot row (column b j)) (seq 0 4)) a.

Definition mvec (m : list (list R)) (v : list R) : list R :=
  map (fun row => dot row v) m.

Definition set_current (m : list (list R)) (v : View) : View :=
  match matrix_mode v with
  | GL_PROJECTION =>
      {| viewport := viewport v; matrix_mode := matrix_mode v;
         projection := m; modelview := modelview v |}
  | GL_MODELVIEW =>
      {| viewport := viewport v; matrix_mode := matrix_mode v;
         projection := projection v; modelview := m |}
  end.

Definition current_matrix (v : View) : list (list R) :=
  match matrix_mode v with
  | GL_PROJECTION => projection v
  | GL_MODELVIEW => modelview v
  end.

(* one OpenGL call; a call with an invalid value (a negative viewport
   extent, an empty glOrtho interval) changes nothing *)
Definition gl_call (c : Call) (v : View) : View :=
  match c with
  | GlViewport x y w h =>
      if (w <? 0) || (h <? 0) then v
      else {| viewport := (x, y, w, h); matrix_mode := matrix_mode v;
              projection := projection v; modelview := modelview v |}
  | GlMatrixMode m =>
      {| viewport := viewport v; matrix_mode := m;
         projection := projection v; modelview := modelview v |}
  | GlLoadIdentity => set_current identity v
  | GlOrtho l r b t n f =>
      if (l =? r) || (b =? t) || (n =? f) then v
      else set_current
             (mmul (current_matrix v)
                (ortho (IZR l) (IZR r) (IZR b) (IZR t) (IZR n) (IZR f))) v
  | _ => v
  end.

Definition gl_run (calls : list Call) (v : View) : View :=
  fold_left (fun v c => gl_call c v) calls v.

(* window coordinates of the vertex (x, y, 0, 1) *)
Definition to_window (v : View) (p : R * R) : R * R :=
  match mvec (projection v) (mvec (modelview v) [fst p; snd p; 0%R; 1%R]) with
  | [xc; yc; _; wc] =>
      let '(vx, vy, vw, vh) := viewport v in
      ((IZR vx + (xc / wc + 1) * IZR vw / 2)%R,
       (IZR vy + (yc / wc + 1) * IZR vh / 2)%R)
  | _ => (0%R, 0%R)
  end.

(** ** Counting the ink of a text *)

(* the number of set bits of a glyph row *)
Definition ink_row (byte : Z) : nat :=
  length (List.filter (fun b => Z.testbit byte (7 - Z.of_nat b)) (seq 0 8)).

Section Ink.
Context {H : Header}.

Definition ink_glyph (ch : ascii) : nat :=
  list_sum (map (fun r => ink_row (glyph_byte ch r)) (seq 0 8)).

Fixpoint ink (text : string) : nat :=
  match text with
  | EmptyString => O
  | String ch rest => (ink_glyph ch + ink rest)%nat
  end.

End Ink.

(* an int made of three bytes, 0xRRGGBB *)
Definition pack (red green blue : Z) : Z := red * 2 ^ 16 + green * 2 ^ 8 + blue.

(** * Lemmas on the model *)

(** ** Loops and arrays *)

Lemma iterate_inv {S : Type} (P : nat -> S -> Prop) (body : Z -> S -> result S)
    (n : nat) (i0 : Z) (s0 : S) :
  P O s0 ->
  (forall k s, (k < n)%nat -> P k s ->
     exists s', body (i0 + Z.of_nat k) s = Done s' /\ P (Datatypes.S k) s') ->
  exists s', iterate n i0 body s0 = Done s' /\ P n s'.
Proof.
  revert P i0 s0. induction n as [|n IH]; intros P i0 s0 H0 Hstep.
  - exists s0. split; [reflexivity | assumption].
  - destruct (Hstep O s0 ltac:(lia) H0) as (s1 & Hb & H1).
    rewrite Z.add_0_r in Hb.
    destruct (IH (fun k s => P (Datatypes.S k) s) (i0 + 1) s1 H1) as (s' & Hit & Hn).
    + intros k s Hk HP. destruct (Hstep (Datatypes.S k) s ltac:(lia) HP) as (s2 & Hb2 & H2).
      exists s2. split; [| assumption].
      rewrite <- Hb2. f_equal. lia.
    + exists s'. split; [| assumption]. simpl. rewrite Hb. exact Hit.
Qed.

Lemma store_at_end {A : Type} (pre : array A) (c : option A) (rest : array A)
    (i : Z) (v : A) :
  i = Z.of_nat (length pre) ->
  store (pre ++ c :: rest) i v = Done (pre ++ Some v :: rest).
Proof.
  intros ->. unfold store.
  rewrite length_app. simpl length.
  replace ((0 <=? Z.of_nat (length pre)) &&
           (Z.of_nat (length pre) <? Z.of_nat (length pre + Datatypes.S (length rest))))
    with true
    by (symmetry; apply andb_true_intro; split;
        [apply Z.leb_le | apply Z.ltb_lt]; lia).
  rewrite Nat2Z.id.
  replace (length pre) with (length pre + 0)%nat at 1 by lia.
  rewrite insert_app_r. reflexivity.
Qed.

Lemma load_at_end {A : Type} (pre : array A) (v : A) (rest : array A) (i : Z) :
  i = Z.of_nat (length pre) ->
  load (pre ++ Some v :: rest) i = Done v.
Proof.
  intros ->. unfold load.
  rewrite length_app. simpl length.
  replace ((0 <=? Z.of_nat (length pre)) &&
           (Z.of_nat (length pre) <? Z.of_nat (length pre + Datatypes.S (length rest))))
    with true
    by (symmetry; apply andb_true_intro; split;
        [apply Z.leb_le | apply Z.ltb_lt]; lia).
  rewrite Nat2Z.id.
  rewrite lookup_app_r by lia. rewrite Nat.sub_diag. reflexivity.
Qed.

Lemma load_array_of {A : Type} (vs : list A) (k : nat) (v : A) :
  vs !! k = Some v -> load (array_of vs) (Z.of_nat k) = Done v.
Proof.
  intros Hk. apply take_drop_middle in Hk.
  rewrite <- Hk at 1. unfold array_of. rewrite map_app. simpl.
  apply load_at_end. rewrite length_map, length_take.
  assert (k < length vs)%nat; [| lia].
  rewrite <- Hk, length_app, length_take. simpl.
  destruct (Nat.le_gt_cases (length vs) k); [| lia].
  rewrite take_ge in Hk by lia.
  apply (f_equal length) in Hk. rewrite length_app in Hk. simpl in Hk. lia.
Qed.

(** ** drawPoint and drawCircle, evaluated *)

Section Evaluation.
Context {F : Type} {FA : FloatArith F} {H : Header}.

Lemma drawPoint_run (x y size : F) (color : Z) (smooth : bool) (st : GLState) :
  drawPoint x y size color smooth st = Done (tt, after_point x y size color smooth st).
Proof.
  destruct st, smooth; reflexivity.
Qed.

Lemma flatten_app (us vs : list (F * F)) :
  flatten (us ++ vs) = flatten us ++ flatten vs.
Proof. unfold flatten. rewrite map_app, concat_app. reflexivity. Qed.

Lemma length_flatten (vs : list (F * F)) :
  length (flatten vs) = (2 * length vs)%nat.
Proof.
  induction vs as [|v vs IH]; [reflexivity |].
  change (flatten (v :: vs)) with (fst v :: snd v :: flatten vs).
  cbn [length]. rewrite IH. lia.
Qed.

Lemma fetch_at (pre : array F) (vs : list (F * F)) (rest : array F) (first : Z) :
  Z.of_nat (length pre) = 2 * first ->
  fetch (pre ++ array_of (flatten vs) ++ rest) first (length vs) = Done vs.
Proof.
  revert pre first. induction vs as [|[vx vy] vs IH]; intros pre first Hlen;
    [reflexivity |].
  change (array_of (flatten ((vx, vy) :: vs)))
    with (Some vx :: Some vy :: array_of (flatten vs)).
  cbn [fetch length app].
  rewrite load_at_end by lia.
  replace (pre ++ Some vx :: Some vy :: array_of (flatten vs) ++ rest)
    with ((pre ++ [Some vx]) ++ Some vy :: array_of (flatten vs) ++ rest)
    by (rewrite <- app_assoc; reflexivity).
  rewrite load_at_end by (rewrite length_app; simpl; lia).
  replace ((pre ++ [Some vx]) ++ Some vy :: array_of (flatten vs) ++ rest)
    with ((pre ++ [Some vx; Some vy]) ++ array_of (flatten vs) ++ rest)
    by (rewrite <- !app_assoc; reflexivity).
  cbn [bind Monad_result].
  rewrite IH by (rewrite length_app; simpl; lia).
  reflexivity.
Qed.

Lemma fetch_array (vs : list (F * F)) :
  fetch (array_of (flatten vs)) 0 (length vs) = Done vs.
Proof.
  pose proof (fetch_at [] vs [] 0 eq_refl) as Hf.
  rewrite app_nil_r in Hf. exact Hf.
Qed.

Section CircleEvaluation.
Context {FT : FloatTrig F}.
Variables (x y radius : F) (sides : Z).

Lemma fan_upto_S (k : nat) :
  fan_upto x y radius sides (Datatypes.S k)
  = fan_upto x y radius sides k ++ [rim_vertex x y radius sides (1 + Z.of_nat k)].
Proof.
  unfold fan_upto. rewrite seq_S, map_app. reflexivity.
Qed.

Lemma length_fan_upto (k : nat) : length (fan_upto x y radius sides k) = Datatypes.S k.
Proof.
  unfold fan_upto. cbn [length]. rewrite length_map, length_seq. reflexivity.
Qed.

Lemma rim_loop_run (n : nat) :
  iterate n 1 (rim_body x y radius sides (fmul (of_int 2) M_PI))
    (Some x :: replicate n None, Some y :: replicate n None)
  = Done (array_of (map fst (fan_upto x y radius sides n)),
          array_of (map snd (fan_upto x y radius sides n))).
Proof.
  destruct (iterate_inv
    (fun k XY =>
       XY = (array_of (map fst (fan_upto x y radius sides k)) ++ replicate (n - k) None,
             array_of (map snd (fan_upto x y radius sides k)) ++ replicate (n - k) None))
    (rim_body x y radius sides (fmul (of_int 2) M_PI)) n 1
    (Some x :: replicate n None, Some y :: replicate n None)) as (XY & Hrun & HXY).
  - rewrite Nat.sub_0_r. reflexivity.
  - intros k XY Hk ->.
    replace (n - k)%nat with (Datatypes.S (n - Datatypes.S k)) by lia.
    cbn [replicate]. unfold rim_body.
    rewrite store_at_end
      by (unfold array_of; rewrite !length_map, length_fan_upto; lia).
    rewrite store_at_end
      by (unfold array_of; rewrite !length_map, length_fan_upto; lia).
    eexists. split; [reflexivity |].
    rewrite fan_upto_S. unfold array_of. rewrite !map_app, <- !app_assoc.
    reflexivity.
  - rewrite Hrun, HXY, Nat.sub_diag. cbn [replicate]. rewrite !app_nil_r.
    reflexivity.
Qed.

Lemma interleave_loop_run (vs : list (F * F)) :
  iterate (length vs) 0
    (interleave_body (array_of (map fst vs)) (array_of (map snd vs)))
    (replicate (2 * length vs) None)
  = Done (array_of (flatten vs)).
Proof.
  destruct (iterate_inv
    (fun k all =>
       all = array_of (flatten (take k vs)) ++ replicate (2 * (length vs - k)) None)
    (interleave_body (array_of (map fst vs)) (array_of (map snd vs)))
    (length vs) 0 (replicate (2 * length vs) None)) as (all & Hrun & Hall).
  - rewrite Nat.sub_0_r. reflexivity.
  - intros k all Hk ->.
    destruct (lookup_lt_is_Some_2 vs k Hk) as [v Hv].
    replace (2 * (length vs - k))%nat
      with (Datatypes.S (Datatypes.S (2 * (length vs - Datatypes.S k)))) by lia.
    cbn [replicate]. unfold interleave_body. rewrite Z.add_0_l.
    assert (Hlen : length (array_of (flatten (take k vs))) = (2 * k)%nat)
      by (unfold array_of; rewrite length_map, length_flatten, length_take; lia).
    rewrite (load_array_of (map fst vs) k (fst v))
      by (change (map fst vs) with (fst <$> vs);
          rewrite list_lookup_fmap, Hv; reflexivity).
    cbn [bind Monad_result].
    rewrite store_at_end by lia.
    rewrite (load_array_of (map snd vs) k (snd v))
      by (change (map snd vs) with (snd <$> vs);
          rewrite list_lookup_fmap, Hv; reflexivity).
    cbn [bind Monad_result].
    replace (array_of (flatten (take k vs)) ++
             Some (fst v) :: None :: replicate (2 * (length vs - Datatypes.S k)) None)
      with ((array_of (flatten (take k vs)) ++ [Some (fst v)]) ++
            None :: replicate (2 * (length vs - Datatypes.S k)) None)
      by (rewrite <- app_assoc; reflexivity).
    rewrite store_at_end by (rewrite length_app; simpl; lia).
    eexists. split; [reflexivity |].
    rewrite (take_S_r vs k v Hv), flatten_app. unfold array_of.
    rewrite map_app, <- !app_assoc. reflexivity.
  - rewrite Hrun, Hall, Nat.sub_diag, take_ge by lia.
    cbn [replicate Nat.mul]. rewrite app_nil_r. reflexivity.
Qed.

(* the state of the two coordinate arrays when the rim loop has ended *)
Lemma circleVertices_rim :
  -1 <= sides ->
  (circleVerticesX <- new_array (sides + 2) ;;
   circleVerticesY <- new_array (sides + 2) ;;
   circleVerticesX <- store circleVerticesX 0 x ;;
   circleVerticesY <- store circleVerticesY 0 y ;;
   for_loop 1 (sides + 2) (rim_body x y radius sides (fmul (of_int 2) M_PI))
     (circleVerticesX, circleVerticesY))
  = Done (array_of (map fst (fan x y radius sides)),
          array_of (map snd (fan x y radius sides))).
Proof.
  intros Hsides. unfold new_array, for_loop.
  destruct (Z.ltb_spec (sides + 2) 0) as [|_]; [lia |].
  cbn [bind Monad_result].
  replace (Z.to_nat (sides + 2)) with (Datatypes.S (Z.to_nat (sides + 1))) by lia.
  cbn [replicate].
  pose proof (fun v : F =>
    store_at_end [] None (replicate (Z.to_nat (sides + 1)) None) 0 v eq_refl)
    as Hstore.
  cbn [app] in Hstore. rewrite !Hstore. clear Hstore.
  cbn [bind Monad_result].
  replace (Z.to_nat (sides + 2 - 1)) with (Z.to_nat (sides + 1)) by lia.
  apply rim_loop_run.
Qed.

Lemma as_int_Done (z : Z) : z <= INT_MAX -> as_int z = Done z.
Proof.
  intros Hz. unfold as_int. destruct (Z.leb_spec z INT_MAX); [reflexivity | lia].
Qed.

Lemma as_int_Fault (z : Z) : INT_MAX < z -> as_int z = Fault (IntOverflow z).
Proof.
  intros Hz. unfold as_int. destruct (Z.leb_spec z INT_MAX); [lia | reflexivity].
Qed.

Lemma circleVertices_after_rim :
  -1 <= sides ->
  circleVertices x y radius sides (sides + 2)
  = (twice <- as_int ((sides + 2) * 2) ;;
     allCircleVertices <- new_array twice ;;
     for_loop 0 (sides + 2)
       (interleave_body (array_of (map fst (fan x y radius sides)))
                        (array_of (map snd (fan x y radius sides))))
       allCircleVertices).
Proof.
  intros Hsides. unfold circleVertices.
  pose proof (circleVertices_rim Hsides) as Hrim.
  cbn [bind Monad_result] in Hrim |- *.
  destruct (new_array (A:=F) (sides + 2)) as [arr |]; [| discriminate Hrim].
  destruct (store arr 0 x) as [ax |]; [| discriminate Hrim].
  destruct (store arr 0 y) as [ay |]; [| discriminate Hrim].
  rewrite Hrim. reflexivity.
Qed.

Lemma circleVertices_run :
  -1 <= sides <= 2 ^ 30 - 3 ->
  circleVertices x y radius sides (sides + 2)
  = Done (array_of (flatten (fan x y radius sides))).
Proof.
  intros Hsides. rewrite circleVertices_after_rim by lia.
  rewrite (as_int_Done ((sides + 2) * 2)) by (unfold INT_MAX; lia).
  cbn [bind Monad_result]. unfold new_array, for_loop.
  destruct (Z.ltb_spec ((sides + 2) * 2) 0) as [|_]; [lia |].
  replace (Z.to_nat (sides + 2 - 0)) with (length (fan x y radius sides))
    by (unfold fan; rewrite length_fan_upto; lia).
  replace (Z.to_nat ((sides + 2) * 2)) with (2 * length (fan x y radius sides))%nat
    by (unfold fan; rewrite length_fan_upto; lia).
  apply interleave_loop_run.
Qed.

Lemma drawCircle_run (color : Z) (st : GLState) :
  -1 <= sides <= 2 ^ 30 - 3 ->
  drawCircle x y radius color sides st = Done (tt, after_circle x y radius sides color st).
Proof.
  intros Hsides. unfold drawCircle.
  cbn [bind Monad_GL]. unfold lift.
  rewrite (as_int_Done (sides + 2)) by (unfold INT_MAX; lia).
  rewrite circleVertices_run by assumption.
  assert (Hfetch : fetch (array_of (flatten (fan x y radius sides))) 0
                     (Z.to_nat (sides + 2))
                   = Done (fan x y radius sides)).
  { replace (Z.to_nat (sides + 2)) with (length (fan x y radius sides))
      by (unfold fan; rewrite length_fan_upto; lia).
    apply fetch_array. }
  assert (Hcount : (0 <=? sides + 2) = true) by (apply Z.leb_le; lia).
  unfold after_circle.
  unfold glDrawArrays, glClientState, glVertexPointer, setColor, glColor3f, modify.
  remember (array_of (flatten (fan x y radius sides))) as arr.
  remember (Z.to_nat (sides + 2)) as count.
  cbn. rewrite Hcount, Hfetch. reflexivity.
Qed.

Lemma length_fan : -1 <= sides -> Z.of_nat (length (fan x y radius sides)) = sides + 2.
Proof. intros Hsides. unfold fan. rewrite length_fan_upto. lia. Qed.

Lemma fan_hub : (fan x y radius sides) !! O = Some (x, y).
Proof. reflexivity. Qed.

Lemma fan_rim (i : Z) :
  1 <= i <= sides + 1 ->
  fan x y radius sides !! Z.to_nat i = Some (rim_vertex x y radius sides i).
Proof.
  intros Hi. unfold fan, fan_upto.
  rewrite lookup_cons_ne_0 by lia.
  change (map (fun j => rim_vertex x y radius sides (1 + Z.of_nat j))
            (seq 0 (Z.to_nat (sides + 1))))
    with ((fun j => rim_vertex x y radius sides (1 + Z.of_nat j))
          <$> seq 0 (Z.to_nat (sides + 1))).
  rewrite list_lookup_fmap, lookup_seq_lt by lia.
  cbn [fmap option_fmap option_map Nat.add]. f_equal. f_equal. lia.
Qed.

Lemma issued_after_circle (color : Z) (st : GLState) :
  drop (length (gl_calls st)) (gl_calls (after_circle x y radius sides color st))
  = [ {| dc_mode := GL_TRIANGLE_FAN;
         dc_vertices := (fan x y radius sides);
         dc_color := channels color;
         dc_point_size := gl_point_size st;
         dc_point_smooth := gl_point_smooth st |} ].
Proof. cbn [after_circle gl_calls]. apply drop_app_length. Qed.

(* from sides = 2^30 - 2 on the int arithmetic of drawCircle overflows:
   in numberOfVertices * 2 once the rim has been computed, and from
   sides = 2^31 - 2 on already in sides + 2 *)
Lemma drawCircle_overflow (color : Z) (st : GLState) :
  2 ^ 30 - 2 <= sides ->
  drawCircle x y radius color sides st
  = Fault (IntOverflow (if sides + 2 <=? INT_MAX then (sides + 2) * 2 else sides + 2)).
Proof.
  intros Hsides. unfold drawCircle. cbn [bind Monad_GL]. unfold lift.
  destruct (Z.leb_spec (sides + 2) INT_MAX) as [Hfit | Hover].
  - rewrite (as_int_Done (sides + 2)) by exact Hfit.
    rewrite circleVertices_after_rim by lia.
    rewrite (as_int_Fault ((sides + 2) * 2)) by (unfold INT_MAX; lia).
    reflexivity.
  - rewrite (as_int_Fault (sides + 2)) by exact Hover. reflexivity.
Qed.

End CircleEvaluation.

(** ** What drawText does to the context *)

Lemma paint_app (ps qs : list (F * F)) (st : GLState) :
  paint (ps ++ qs) st = paint qs (paint ps st).
Proof. apply fold_left_app. Qed.

Lemma paint_frame (pts : list (F * F)) (st : GLState) :
  gl_point_size (paint pts st) = gl_point_size st /\
  gl_point_smooth (paint pts st) = gl_point_smooth st /\
  gl_attrib_stack (paint pts st) = gl_attrib_stack st /\
  gl_calls (paint pts st) =
    gl_calls st ++ map (text_point (gl_point_smooth st)) pts.
Proof.
  revert st. induction pts as [|[px py] pts IH]; intros st.
  - cbn. rewrite app_nil_r. auto.
  - change (paint ((px, py) :: pts) st)
      with (paint pts (after_point px py (of_int 1) White smooth_default st)).
    destruct (IH (after_point px py (of_int 1) White smooth_default st))
      as (Hsize & Hsmooth & Hstack & Hcalls).
    rewrite Hsize, Hsmooth, Hstack, Hcalls. cbn.
    rewrite <- app_assoc. auto.
Qed.

Lemma paints_ret {A : Type} (a : A) : paints (ret a) a [].
Proof. intros st. reflexivity. Qed.

Lemma paints_bind {A B : Type} (m : GL A) (k : A -> GL B) (a : A) (b : B)
    (ps qs : list (F * F)) :
  paints m a ps -> paints (k a) b qs -> paints (bind m k) b (ps ++ qs).
Proof.
  intros Hm Hk st. cbn. rewrite Hm, Hk, paint_app. reflexivity.
Qed.

Lemma paints_drawPoint (x y : F) :
  paints (drawPoint x y (of_int 1) White smooth_default) tt [(x, y)].
Proof. intros st. apply drawPoint_run. Qed.

Lemma paints_iterate {S : Type} (body : Z -> S -> GL S) (n : nat) (i0 : Z)
    (state : nat -> S) (pts : nat -> list (F * F)) :
  (forall k, (k < n)%nat ->
     paints (body (i0 + Z.of_nat k) (state k)) (state (Datatypes.S k)) (pts k)) ->
  paints (iterate n i0 body (state O)) (state n) (flat_map pts (seq 0 n)).
Proof.
  revert i0 state pts. induction n as [|n IH]; intros i0 state pts Hstep.
  - apply paints_ret.
  - cbn [iterate seq flat_map].
    apply paints_bind with (a := state 1%nat).
    + specialize (Hstep O ltac:(lia)). rewrite Z.add_0_r in Hstep. exact Hstep.
    + rewrite <- seq_shift, flat_map_concat_map, map_map, <- flat_map_concat_map.
      apply (IH (i0 + 1) (fun k => state (Datatypes.S k)) (fun k => pts (Datatypes.S k))).
      intros k Hk. specialize (Hstep (Datatypes.S k) ltac:(lia)).
      replace (i0 + 1 + Z.of_nat k) with (i0 + Z.of_nat (Datatypes.S k)) by lia.
      exact Hstep.
Qed.

Lemma uniform_ret {A : Type} (ok : fault -> Prop) (Q : A -> Prop) (a : A) :
  Q a -> uniform ok Q (ret a).
Proof. intros Ha. left. exists a, []. split; [assumption | apply paints_ret]. Qed.

Lemma uniform_fault {A : Type} (ok : fault -> Prop) (Q : A -> Prop) (e : fault) :
  ok e -> uniform ok Q (lift (Fault e)).
Proof. intros He. right. exists e. split; [assumption | reflexivity]. Qed.

Lemma uniform_bind {A B : Type} (ok : fault -> Prop) (P : A -> Prop)
    (Q : B -> Prop) (m : GL A) (k : A -> GL B) :
  uniform ok P m -> (forall a, P a -> uniform ok Q (k a)) ->
  uniform ok Q (bind m k).
Proof.
  intros [(a & ps & Ha & Hm) | (e & He & Hm)] Hk.
  - destruct (Hk a Ha) as [(b & qs & Hb & Hka) | (e & He & Hka)].
    + left. exists b, (ps ++ qs). split; [assumption |].
      apply paints_bind with (a := a); assumption.
    + right. exists e. split; [assumption |].
      intros st. cbn. rewrite Hm. apply Hka.
  - right. exists e. split; [assumption |]. intros st. cbn. rewrite Hm. reflexivity.
Qed.

Lemma uniform_iterate {S : Type} (ok : fault -> Prop) (Inv : S -> Prop)
    (body : Z -> S -> GL S) (n : nat) (i0 : Z) (s : S) :
  Inv s ->
  (forall k s, (k < n)%nat -> Inv s -> uniform ok Inv (body (i0 + Z.of_nat k) s)) ->
  uniform ok Inv (iterate n i0 body s).
Proof.
  revert i0 s. induction n as [|n IH]; intros i0 s Hs Hbody.
  - apply uniform_ret. assumption.
  - cbn [iterate]. apply uniform_bind with (P := Inv).
    + specialize (Hbody O s ltac:(lia) Hs). rewrite Z.add_0_r in Hbody. exact Hbody.
    + intros s' Hs'. apply IH; [assumption |].
      intros k s1 Hk Hs1. specialize (Hbody (Datatypes.S k) s1 ltac:(lia) Hs1).
      replace (i0 + 1 + Z.of_nat k) with (i0 + Z.of_nat (Datatypes.S k)) by lia.
      exact Hbody.
Qed.

Lemma uniform_lift {A : Type} (ok : fault -> Prop) (Q : A -> Prop) (r : result A) :
  (forall e, r = Fault e -> ok e) -> (forall a, r = Done a -> Q a) ->
  uniform ok Q (lift r).
Proof.
  intros Hfault Hdone. destruct r as [a | e].
  - left. exists a, []. split; [auto | intros st; reflexivity].
  - apply uniform_fault. auto.
Qed.

Section TextUniform.
Variable ok : fault -> Prop.
Hypothesis ok_fuel : ok OutOfFuel.
Variables (budget : nat) (size : Z).

Lemma uniform_xs_loop (fuel : nat) (xs xpos ys : F) :
  uniform ok (fun _ => True) (xs_loop fuel xs xpos ys size).
Proof.
  revert xs. induction fuel as [|fuel IH]; intros xs; cbn [xs_loop].
  - apply uniform_fault, ok_fuel.
  - destruct (fltb xs (fadd xpos (of_int size))).
    + apply uniform_bind with (P := fun _ => True); [| intros; apply IH].
      left. exists tt, [(xs, ys)]. split; [exact I | apply paints_drawPoint].
    + apply uniform_ret. exact I.
Qed.

Lemma uniform_ys_loop (fuel : nat) (ys xpos ypos : F) :
  uniform ok (fun _ => True) (ys_loop budget fuel ys xpos ypos size).
Proof.
  revert ys. induction fuel as [|fuel IH]; intros ys; cbn [ys_loop].
  - apply uniform_fault, ok_fuel.
  - destruct (fltb ys (fadd ypos (of_int size))).
    + apply uniform_bind with (P := fun _ => True); [| intros; apply IH].
      apply uniform_xs_loop.
    + apply uniform_ret. exact I.
Qed.

Lemma uniform_bit_body (ypos : F) (b : Z) (s : Z * F) :
  uniform ok (fun _ => True) (bit_body budget ypos size b s).
Proof.
  destruct s as [byte xpos]. unfold bit_body.
  apply uniform_bind with (P := fun _ => True).
  - destruct (negb (Z.land byte 128 =? 0)).
    + apply uniform_ys_loop.
    + apply uniform_ret. exact I.
  - intros _ _. apply uniform_ret. exact I.
Qed.

Lemma uniform_row_body (ch : ascii) (x : F) (i : Z) (s : option F * F) :
  glyph_ok ok ch -> 0 <= i < 8 ->
  uniform ok (fun s' => is_Some (fst s')) (row_body budget ch x size i s).
Proof.
  intros Hglyph Hi. destruct s as [xpos ypos]. unfold row_body.
  apply uniform_bind with (P := fun _ => True).
  - apply uniform_lift; [| auto]. intros e He. exact (Hglyph i e Hi He).
  - intros byte _. apply uniform_bind with (P := fun _ => True).
    + apply uniform_iterate; [exact I |]. intros. apply uniform_bit_body.
    + intros [byte' xpos'] _. apply uniform_ret. cbn. eauto.
Qed.

Lemma uniform_text_loop (text : string) (x y : F) (xpos : option F) :
  (forall ch, In ch (list_ascii_of_string text) -> glyph_ok ok ch) ->
  uniform ok (fun _ => True) (text_loop budget text x y xpos size).
Proof.
  revert x xpos. induction text as [|ch rest IH]; intros x xpos Hglyph; cbn [text_loop].
  - apply uniform_ret. exact I.
  - apply uniform_bind with (P := fun s' => is_Some (fst s')).
    + assert (Hch : glyph_ok ok ch) by (apply Hglyph; left; reflexivity).
      unfold for_loop. change (Z.to_nat (8 - 0)) with 8%nat. cbn [iterate].
      apply uniform_bind with (P := fun s' => is_Some (fst s'));
        [apply uniform_row_body; [assumption | lia] |].
      intros s1 Hs1.
      apply (uniform_iterate ok (fun s' : option F * F => is_Some (fst s'))
               (row_body budget ch x size) 7 (0 + 1) s1 Hs1).
      intros k s Hk _. apply uniform_row_body; [assumption | lia].
    + intros [xpos' ypos'] Hsome. cbn in Hsome. destruct Hsome as [x' ->].
      apply uniform_bind with (P := fun _ => True).
      * apply uniform_lift; [discriminate | auto].
      * intros x'' _. apply IH. intros ch' Hin. apply Hglyph. right. exact Hin.
Qed.

End TextUniform.

(** ** drawText as a whole *)

Lemma setColor_run (color : Z) (st : GLState) :
  setColor color st = Done (tt, with_color (channels color) st).
Proof. reflexivity. Qed.

Lemma drawText_paints (budget : nat) (x y : F) (text : string) (size color : Z)
    (pts : list (F * F)) :
  paints (text_loop budget text x y None size) tt pts ->
  forall st,
    drawText budget x y text size color st
    = Done (tt, paint pts (with_color (channels color) st)).
Proof.
  intros Hloop st. unfold drawText. cbn [bind Monad_GL].
  rewrite setColor_run. apply Hloop.
Qed.

Lemma drawText_uniform (ok : fault -> Prop) (budget : nat) (x y : F)
    (text : string) (size color : Z) :
  ok OutOfFuel ->
  (forall ch, In ch (list_ascii_of_string text) -> glyph_ok ok ch) ->
  (exists pts, forall st,
     drawText budget x y text size color st
     = Done (tt, paint pts (with_color (channels color) st))) \/
  (exists e, ok e /\ forall st, drawText budget x y text size color st = Fault e).
Proof.
  intros Hfuel Hglyph.
  destruct (uniform_text_loop ok Hfuel budget size text x y None Hglyph)
    as [([] & pts & _ & Hpts) | (e & He & Hfault)].
  - left. exists pts. apply drawText_paints. exact Hpts.
  - right. exists e. split; [assumption |]. intros st.
    unfold drawText. cbn [bind Monad_GL]. rewrite setColor_run. apply Hfault.
Qed.

Lemma issued_paint (pts : list (F * F)) (c : F * F * F) (st : GLState) :
  issued st (paint pts (with_color c st))
  = map (text_point (gl_point_smooth st)) pts.
Proof.
  unfold issued. destruct (paint_frame pts (with_color c st)) as (_ & _ & _ & ->).
  cbn [with_color gl_calls gl_point_smooth]. apply drop_app_length.
Qed.

Lemma vertices_text_points (smooth : bool) (pts : list (F * F)) :
  concat (map dc_vertices (map (text_point smooth) pts)) = pts.
Proof.
  induction pts as [|p pts IH]; [reflexivity |].
  cbn [map concat dc_vertices text_point app]. rewrite IH. reflexivity.
Qed.

Lemma drawn_drawText (budget : nat) (x y : F) (text : string) (size color : Z)
    (pts : list (F * F)) (st : GLState) :
  paints (text_loop budget text x y None size) tt pts ->
  drawn (drawText budget x y text size color) st = Done pts.
Proof.
  intros Hloop. unfold drawn.
  rewrite (drawText_paints budget x y text size color pts Hloop).
  rewrite issued_paint, vertices_text_points. reflexivity.
Qed.

End Evaluation.

(** ** The bits of a glyph row *)

Lemma shifted_testbit (byte : Z) (k : nat) (i : Z) :
  (0 <= i < 8) ->
  Z.testbit (shifted byte k) i
  = if (Z.of_nat k <=? i) then Z.testbit byte (i - Z.of_nat k) else false.
Proof.
  revert i. induction k as [|k IH]; intros i Hi.
  - change (shifted byte 0) with byte. change (Z.of_nat 0) with 0.
    rewrite Z.sub_0_r. destruct (Z.leb_spec 0 i); [reflexivity | lia].
  - change (shifted byte (Datatypes.S k)) with (Z.shiftl (shifted byte k) 1 mod 2 ^ 8).
    rewrite Z.mod_pow2_bits_low by lia.
    rewrite Z.shiftl_spec by lia.
    destruct (Z.eq_dec i 0) as [-> | Hne].
    + rewrite Z.testbit_neg_r by lia.
      destruct (Z.leb_spec (Z.of_nat (Datatypes.S k)) 0); [lia | reflexivity].
    + rewrite IH by lia.
      destruct (Z.leb_spec (Z.of_nat k) (i - 1)), (Z.leb_spec (Z.of_nat (Datatypes.S k)) i);
        try lia; try reflexivity.
      f_equal. lia.
Qed.

Lemma land_0x80 (a : Z) : (Z.land a 0x80 =? 0) = negb (Z.testbit a 7).
Proof.
  change 0x80 with (2 ^ 7).
  destruct (Z.testbit a 7) eqn:Hbit; cbn [negb].
  - apply Z.eqb_neq. intros Hzero.
    apply (f_equal (fun v => Z.testbit v 7)) in Hzero.
    rewrite Z.land_spec, Hbit, Z.pow2_bits_true, Z.bits_0 in Hzero by lia.
    discriminate.
  - apply Z.eqb_eq. apply Z.bits_inj'. intros n Hn.
    rewrite Z.land_spec, Z.bits_0, Z.pow2_bits_eqb by lia.
    destruct (Z.eqb_spec 7 n) as [<- | _].
    + rewrite Hbit. reflexivity.
    + apply andb_false_r.
Qed.

(** ** drawText over the reals: the points in closed form *)

Section RealText.
Context {H : Header}.
#[local] Open Scope R_scope.

Lemma paints_eq {A : Type} (m : GL (F:=R) A) (a a' : A) (pts pts' : list (R * R)) :
  a = a' -> pts = pts' -> paints m a pts -> paints m a' pts'.
Proof. intros -> ->. trivial. Qed.

Lemma fltb_true (a b : R) : a < b -> fltb a b = true.
Proof. intros Hab. cbn. destruct (Rlt_dec a b); [reflexivity | contradiction]. Qed.

Lemma fltb_false (a b : R) : b <= a -> fltb a b = false.
Proof. intros Hba. cbn. destruct (Rlt_dec a b); [lra | reflexivity]. Qed.

Section Block.
Variables (budget : nat) (size : Z).
Hypothesis budget_ok : (Z.to_nat size < budget)%nat.

Lemma INR_lt_size (j : nat) : (j < Z.to_nat size)%nat -> INR j < IZR size.
Proof.
  intros Hj. rewrite <- (Z2Nat.id size) by lia.
  rewrite <- INR_IZR_INZ. apply lt_INR. exact Hj.
Qed.

Lemma size_le_INR (j : nat) : (Z.to_nat size <= j)%nat -> IZR size <= INR j.
Proof.
  intros Hj. destruct (Z.le_gt_cases size 0) as [Hneg | Hpos].
  - apply Rle_trans with 0; [apply (IZR_le size 0 Hneg) | apply pos_INR].
  - rewrite <- (Z2Nat.id size) by lia.
    rewrite <- INR_IZR_INZ. apply le_INR. exact Hj.
Qed.

Lemma xs_loop_from (fuel j : nat) (xpos ys : R) :
  (Z.to_nat size - j < fuel)%nat ->
  paints (xs_loop fuel (xpos + INR j) xpos ys size) tt
    (map (fun j' => (xpos + INR j', ys)) (seq j (Z.to_nat size - j))).
Proof.
  revert j. induction fuel as [|fuel IH]; intros j Hfuel; [lia |].
  cbn [xs_loop].
  destruct (Nat.lt_ge_cases j (Z.to_nat size)) as [Hj | Hj].
  - rewrite fltb_true
      by (change (fadd xpos (of_int size)) with (xpos + IZR size);
          pose proof (INR_lt_size j Hj); lra).
    replace (Z.to_nat size - j)%nat with (Datatypes.S (Z.to_nat size - Datatypes.S j)) by lia.
    cbn [seq map].
    apply (paints_bind _ _ tt tt [(xpos + INR j, ys)]); [apply paints_drawPoint |].
    replace (fadd (xpos + INR j) (of_int 1)) with (xpos + INR (Datatypes.S j))
      by (rewrite S_INR; cbn; lra).
    apply IH. lia.
  - rewrite fltb_false
      by (change (fadd xpos (of_int size)) with (xpos + IZR size);
          pose proof (size_le_INR j Hj); lra).
    replace (Z.to_nat size - j)%nat with O by lia.
    apply paints_ret.
Qed.

Lemma xs_loop_real (xpos ys : R) :
  paints (xs_loop budget xpos xpos ys size) tt (block_row size xpos ys).
Proof.
  pose proof (xs_loop_from budget O xpos ys ltac:(lia)) as Hloop.
  rewrite Nat.sub_0_r in Hloop. cbn [INR] in Hloop. rewrite Rplus_0_r in Hloop.
  exact Hloop.
Qed.

Lemma ys_loop_from (fuel i : nat) (xpos ypos : R) :
  (Z.to_nat size - i < fuel)%nat ->
  paints (ys_loop budget fuel (ypos + INR i) xpos ypos size) tt
    (flat_map (fun i' => block_row size xpos (ypos + INR i')) (seq i (Z.to_nat size - i))).
Proof.
  revert i. induction fuel as [|fuel IH]; intros i Hfuel; [lia |].
  cbn [ys_loop].
  destruct (Nat.lt_ge_cases i (Z.to_nat size)) as [Hi | Hi].
  - rewrite fltb_true
      by (change (fadd ypos (of_int size)) with (ypos + IZR size);
          pose proof (INR_lt_size i Hi); lra).
    replace (Z.to_nat size - i)%nat with (Datatypes.S (Z.to_nat size - Datatypes.S i)) by lia.
    cbn [seq flat_map].
    apply (paints_bind _ _ tt tt); [apply xs_loop_real |].
    replace (fadd (ypos + INR i) (of_int 1)) with (ypos + INR (Datatypes.S i))
      by (rewrite S_INR; cbn; lra).
    apply IH. lia.
  - rewrite fltb_false
      by (change (fadd ypos (of_int size)) with (ypos + IZR size);
          pose proof (size_le_INR i Hi); lra).
    replace (Z.to_nat size - i)%nat with O by lia.
    apply paints_ret.
Qed.

Lemma ys_loop_real (xpos ypos : R) :
  paints (ys_loop budget budget ypos xpos ypos size) tt (block size xpos ypos).
Proof.
  pose proof (ys_loop_from budget O xpos ypos ltac:(lia)) as Hloop.
  rewrite Nat.sub_0_r in Hloop. cbn [INR] in Hloop. rewrite Rplus_0_r in Hloop.
  exact Hloop.
Qed.

Lemma bit_loop_real (byte : Z) (x ypos : R) :
  paints (for_loop 0 8 (bit_body budget ypos size) (byte, x))
    (shifted byte 8, x + 8 * IZR size) (row_points size byte x ypos).
Proof.
  pose proof (paints_iterate (bit_body budget ypos size) 8 0
    (fun k => (shifted byte k, x + INR k * IZR size))
    (fun b => if Z.testbit byte (7 - Z.of_nat b)
              then block size (x + INR b * IZR size) ypos
              else [])) as Hloop.
  cbn beta in Hloop.
  replace (x + INR 0 * IZR size) with x in Hloop by (cbn [INR]; lra).
  replace (x + INR 8 * IZR size) with (x + 8 * IZR size) in Hloop
    by (cbn [INR]; lra).
  apply Hloop. clear Hloop. intros k Hk.
  unfold bit_body. rewrite land_0x80, negb_involutive.
  rewrite shifted_testbit by lia.
  destruct (Z.leb_spec (Z.of_nat k) 7) as [_ |]; [| lia].
  rewrite <- (app_nil_r (if Z.testbit byte (7 - Z.of_nat k) then _ else _)).
  eapply paints_bind with (a := tt).
  - destruct (Z.testbit byte (7 - Z.of_nat k)).
    + apply ys_loop_real.
    + apply paints_ret.
  - eapply paints_eq; [| reflexivity | apply paints_ret].
    f_equal. rewrite S_INR. cbn. lra.
Qed.

Lemma glyph_row_readable (ch : ascii) (r : nat) :
  readable ch -> (r < 8)%nat ->
  glyph_row ch (Z.of_nat r) = Done (glyph_byte ch r).
Proof.
  intros Hch Hr. destruct (Hch r Hr) as [byte Hbyte].
  unfold glyph_byte. rewrite Hbyte. reflexivity.
Qed.

Lemma row_loop_real (ch : ascii) (x y : R) (xpos : option R) :
  readable ch ->
  paints (for_loop 0 8 (row_body budget ch x size) (xpos, fadd y (of_int 8)))
    (Some (x + 8 * IZR size), y + 8 - 8 * IZR size) (glyph_points size ch x y).
Proof.
  intros Hch.
  pose proof (paints_iterate (row_body budget ch x size) 8 0
    (fun k => (match k with O => xpos | _ => Some (x + 8 * IZR size) end,
               y + 8 - INR k * IZR size))
    (fun r => row_points size (glyph_byte ch r) x (y + 8 - INR r * IZR size))) as Hloop.
  cbn beta iota in Hloop.
  replace (y + 8 - INR 0 * IZR size) with (fadd y (of_int 8)) in Hloop
    by (cbn; lra).
  replace (y + 8 - INR 8 * IZR size) with (y + 8 - 8 * IZR size) in Hloop
    by (cbn [INR]; lra).
  apply Hloop. clear Hloop. intros k Hk.
  unfold row_body. rewrite Z.add_0_l.
  rewrite <- (app_nil_l (row_points size _ _ _)).
  eapply paints_bind with (a := glyph_byte ch k).
  { intros st. unfold lift. rewrite (glyph_row_readable ch k Hch Hk). reflexivity. }
  rewrite <- (app_nil_r (row_points size _ _ _)).
  eapply paints_bind; [apply bit_loop_real |].
  cbn beta iota.
  eapply paints_eq; [| reflexivity | apply paints_ret].
  f_equal. rewrite S_INR. cbn. lra.
Qed.

Lemma text_loop_real (text : string) (x y : R) (xpos : option R) :
  (forall ch, In ch (list_ascii_of_string text) -> readable ch) ->
  paints (text_loop budget text x y xpos size) tt (text_points size text x y).
Proof.
  revert x xpos. induction text as [|ch rest IH]; intros x xpos Hread;
    cbn [text_loop text_points].
  - apply paints_ret.
  - eapply paints_bind.
    + apply row_loop_real. apply Hread. left. reflexivity.
    + cbn beta iota.
      rewrite <- (app_nil_l (text_points size rest _ y)).
      eapply paints_bind with (a := x + 8 * IZR size).
      * intros st. reflexivity.
      * apply IH. intros ch' Hin. apply Hread. right. exact Hin.
Qed.

Theorem drawText_real (x y : R) (text : string) (color : Z) (st : GLState) :
  (forall ch, In ch (list_ascii_of_string text) -> readable ch) ->
  drawText budget x y text size color st
  = Done (tt, paint (text_points size text x y) (with_color (channels color) st)).
Proof.
  intros Hread. apply drawText_paints. apply text_loop_real. exact Hread.
Qed.

End Block.
End RealText.

(** ** The channels of a packed colour *)

Lemma land_shiftr_mod (c k : Z) :
  0 <= k <= 16 ->
  Z.land (Z.shiftr (c mod 2 ^ 24) k) 0xFF = Z.land (Z.shiftr c k) 0xFF.
Proof.
  intros Hk. change 0xFF with (Z.ones 8).
  rewrite !Z.land_ones by lia.
  apply Z.bits_inj'. intros n Hn.
  destruct (Z.lt_ge_cases n 8) as [Hlt | Hge].
  - rewrite !Z.mod_pow2_bits_low, !Z.shiftr_spec by lia.
    apply Z.mod_pow2_bits_low. lia.
  - rewrite !Z.mod_pow2_bits_high by lia. reflexivity.
Qed.

Lemma channels_mod {F : Type} {FA : FloatArith F} (c : Z) :
  channels (F:=F) (c mod 2 ^ 24) = channels c.
Proof.
  unfold channels.
  rewrite (land_shiftr_mod c 16), (land_shiftr_mod c 8) by lia.
  pose proof (land_shiftr_mod c 0 ltac:(lia)) as H0.
  rewrite !Z.shiftr_0_r in H0. rewrite H0. reflexivity.
Qed.

Lemma land_shiftr_field (c k : Z) :
  0 <= k ->
  Z.land (Z.shiftr c k) 0xFF = (c / 2 ^ k) mod 2 ^ 8.
Proof.
  intros Hk. change 0xFF with (Z.ones 8).
  rewrite Z.land_ones, Z.shiftr_div_pow2 by lia. reflexivity.
Qed.

Lemma channel_unit_interval (v : Z) :
  (0 <= IZR (v mod 2 ^ 8) / 255 <= 1)%R.
Proof.
  pose proof (Z.mod_pos_bound v (2 ^ 8) ltac:(lia)) as [Hlo Hhi].
  apply IZR_le in Hlo.
  assert (Hhi' : (IZR (v mod 2 ^ 8) <= 255)%R) by (apply IZR_le; lia).
  split.
  - apply Rmult_le_pos; lra.
  - apply Rmult_le_reg_r with 255%R; [lra |].
    unfold Rdiv. rewrite Rmult_assoc, Rinv_l by lra. lra.
Qed.

(** ** The glyph table *)

Section Table.
Context {H : Header}.

Lemma index_Done {A : Type} (t : list A) (i : Z) :
  0 <= i < Z.of_nat (length t) -> exists v, index t i = Done v /\ t !! Z.to_nat i = Some v.
Proof.
  intros Hi. unfold index.
  replace ((0 <=? i) && (i <? Z.of_nat (length t))) with true
    by (symmetry; apply andb_true_intro; split; [apply Z.leb_le | apply Z.ltb_lt]; lia).
  destruct (lookup_lt_is_Some_2 t (Z.to_nat i) ltac:(lia)) as [v Hv].
  exists v. rewrite Hv. auto.
Qed.

Lemma index_Fault {A : Type} (t : list A) (i : Z) :
  ~ (0 <= i < Z.of_nat (length t)) -> index t i = Fault (OutOfBounds i).
Proof.
  intros Hi. unfold index.
  replace ((0 <=? i) && (i <? Z.of_nat (length t))) with false; [reflexivity |].
  symmetry. apply andb_false_iff.
  destruct (Z.leb_spec 0 i), (Z.ltb_spec i (Z.of_nat (length t))); auto; lia.
Qed.

Lemma glyph_row_of_glyph (ch : ascii) (glyph : list Z) (r : nat) :
  index CHARACTERS (char_code ch - 32) = Done glyph ->
  length glyph = 8%nat -> (r < 8)%nat ->
  exists row, glyph !! r = Some row /\ glyph_row ch (Z.of_nat r) = Done (row mod 256).
Proof.
  intros Hglyph Hlen Hr. unfold glyph_row. rewrite Hglyph. cbn [bind Monad_result].
  destruct (index_Done glyph (Z.of_nat r) ltac:(lia)) as (row & Hrow & Hlook).
  rewrite Nat2Z.id in Hlook. exists row. rewrite Hrow. auto.
Qed.

Lemma glyph_in_table (ch : ascii) :
  well_formed_table -> 32 <= char_code ch <= 126 ->
  exists glyph, index CHARACTERS (char_code ch - 32) = Done glyph /\ length glyph = 8%nat.
Proof.
  intros [Hlen Hrows] Hch.
  destruct (index_Done CHARACTERS (char_code ch - 32)) as (glyph & Hglyph & Hlook);
    [rewrite Hlen; lia |].
  exists glyph. split; [assumption |].
  rewrite List.Forall_forall in Hrows. apply Hrows.
  apply list_elem_of_In. apply list_elem_of_lookup. eauto.
Qed.

Lemma glyph_row_in_table (ch : ascii) (i : Z) :
  well_formed_table -> 32 <= char_code ch <= 126 -> 0 <= i < 8 ->
  exists byte, glyph_row ch i = Done byte.
Proof.
  intros Htable Hch Hi.
  destruct (glyph_in_table ch Htable Hch) as (glyph & Hglyph & Hlen).
  destruct (glyph_row_of_glyph ch glyph (Z.to_nat i) Hglyph Hlen ltac:(lia))
    as (row & _ & Hrow).
  rewrite Z2Nat.id in Hrow by lia. eauto.
Qed.

Lemma readable_in_table (ch : ascii) :
  well_formed_table -> 32 <= char_code ch <= 126 -> readable ch.
Proof.
  intros Htable Hch r Hr. apply glyph_row_in_table; [assumption | assumption | lia].
Qed.

Lemma glyph_row_out_of_table (ch : ascii) (i : Z) :
  length CHARACTERS = 95%nat -> ~ (32 <= char_code ch <= 126) ->
  glyph_row ch i = Fault (OutOfBounds (char_code ch - 32)).
Proof.
  intros Hlen Hch. unfold glyph_row.
  rewrite index_Fault by (rewrite Hlen; lia). reflexivity.
Qed.

End Table.

Lemma sample_table_well_formed : well_formed_table (H:=sample_header).
Proof.
  split; [reflexivity |].
  apply List.Forall_forall. intros glyph Hin.
  assert (Hall : forallb (fun g => Nat.eqb (length g) 8) sample_table = true)
    by reflexivity.
  rewrite forallb_forall in Hall. apply Nat.eqb_eq. apply Hall. exact Hin.
Qed.

(** * The claims *)

(** ** setColor *)

(** C5. setColor takes red from bits 16-23, green from bits 8-15 and
    blue from bits 0-7 of the packed colour and divides each by 255,
    which lands in [0, 1]; 0xFF8040 decodes to (1.0, 0.502, 0.251)
    within 1/255, 0x000000 to (0, 0, 0) and 0xFFFFFF to (1, 1, 1)
    (GLfloat read as real numbers). *)
Theorem setColor_decodes (color : Z) (st : GLState (F:=R)) :
  setColor color st = Done (tt, with_color (channels color) st) /\
  (exists red green blue : R,
     channels color = (red, green, blue) /\
     red = (IZR ((color / 2 ^ 16) mod 2 ^ 8) / 255)%R /\
     green = (IZR ((color / 2 ^ 8) mod 2 ^ 8) / 255)%R /\
     blue = (IZR (color mod 2 ^ 8) / 255)%R /\
     (0 <= red <= 1)%R /\ (0 <= green <= 1)%R /\ (0 <= blue <= 1)%R) /\
  (exists red green blue : R,
     channels 0xFF8040 = (red, green, blue) /\
     (Rabs (red - 1) <= 1 / 255)%R /\
     (Rabs (green - 0.502) <= 1 / 255)%R /\
     (Rabs (blue - 0.251) <= 1 / 255)%R) /\
  channels 0x000000 = (0, 0, 0)%R /\
  channels 0xFFFFFF = (1, 1, 1)%R.
Proof.
  split; [apply setColor_run |]. split; [| split; [| split]].
  - exists (IZR ((color / 2 ^ 16) mod 2 ^ 8) / 255)%R,
           (IZR ((color / 2 ^ 8) mod 2 ^ 8) / 255)%R,
           (IZR (color mod 2 ^ 8) / 255)%R.
    split.
    + unfold channels.
      rewrite !land_shiftr_field by lia.
      pose proof (land_shiftr_field color 0 ltac:(lia)) as H0.
      rewrite Z.shiftr_0_r, Z.pow_0_r, Z.div_1_r in H0. rewrite H0.
      reflexivity.
    + repeat split; apply channel_unit_interval.
  - exists (255 / 255)%R, (128 / 255)%R, (64 / 255)%R.
    split; [reflexivity |].
    repeat split; apply Rabs_le; split; lra.
  - unfold channels. cbn [of_int fdiv R_arith].
    change (Z.land (Z.shiftr 0 16) 255) with 0.
    change (Z.land (Z.shiftr 0 8) 255) with 0.
    change (Z.land 0 255) with 0.
    f_equal; [f_equal |]; lra.
  - unfold channels. cbn [of_int fdiv R_arith].
    change (Z.land (Z.shiftr 16777215 16) 255) with 255.
    change (Z.land (Z.shiftr 16777215 8) 255) with 255.
    change (Z.land 16777215 255) with 255.
    f_equal; [f_equal |]; lra.
Qed.

(** C6. setColor gives the same three channels for c and for c mod 2^24:
    the bits above bit 23 do not reach the decoded colour; and setColor
    returns for every input. *)
Theorem setColor_ignores_high_bits {F : Type} {FA : FloatArith F}
    (c : Z) (st : GLState (F:=F)) :
  setColor c st = setColor (c mod 2 ^ 24) st /\
  channels (F:=F) c = channels (c mod 2 ^ 24) /\
  exists st', setColor c st = Done (tt, st').
Proof.
  rewrite !setColor_run, channels_mod. eauto.
Qed.

(** ** drawCircle *)

Lemma distance_rim (x y r a : R) :
  (0 <= r)%R -> distance ((x + r * cos a)%R, (y + r * sin a)%R) (x, y) = r.
Proof.
  intros Hr. unfold distance. cbn [fst snd].
  replace ((x + r * cos a - x) ^ 2 + (y + r * sin a - y) ^ 2)%R
    with (r ^ 2 * ((sin a)² + (cos a)²))%R by (unfold Rsqr; ring).
  rewrite sin2_cos2, Rmult_1_r. apply sqrt_pow2. exact Hr.
Qed.

(** C1, as amended.  For every centre (x, y), every radius r > 0 and
    every side count n from 3 to 2^30 - 3, the largest for which
    numberOfVertices * 2 is an int, drawCircle issues one triangle fan
    of exactly n + 2 vertices; vertex 0 is the centre, and each rim
    vertex, 1 to n + 1, lies at Euclidean distance r from the centre
    (GLfloat read as real numbers). *)
Theorem drawCircle_fan_on_circle (x y r : R) (color n : Z) (st : GLState) :
  (0 < r)%R -> 3 <= n <= 2 ^ 30 - 3 ->
  exists st' vs,
    drawCircle x y r color n st = Done (tt, st') /\
    map dc_mode (issued st st') = [GL_TRIANGLE_FAN] /\
    map dc_vertices (issued st st') = [vs] /\
    Z.of_nat (length vs) = n + 2 /\
    vs !! O = Some (x, y) /\
    forall i, 1 <= i <= n + 1 ->
      exists v, vs !! Z.to_nat i = Some v /\ distance v (x, y) = r.
Proof.
  intros Hr Hn. exists (after_circle x y r n color st), (fan x y r n).
  split; [apply drawCircle_run; lia |].
  unfold issued. rewrite issued_after_circle.
  split; [reflexivity |]. split; [reflexivity |].
  split; [apply length_fan; lia |]. split; [reflexivity |].
  intros i Hi. exists (rim_vertex x y r n i).
  split; [apply fan_rim; exact Hi |].
  apply distance_rim. lra.
Qed.

Lemma drawCircle_fan_on_circle_witness :
  exists st' vs,
    drawCircle 0%R 0%R 1%R 0xFFFFFF 3 initial_state = Done (tt, st') /\
    map dc_mode (issued initial_state st') = [GL_TRIANGLE_FAN] /\
    map dc_vertices (issued initial_state st') = [vs] /\
    Z.of_nat (length vs) = 3 + 2 /\
    vs !! O = Some (0%R, 0%R) /\
    forall i, 1 <= i <= 3 + 1 ->
      exists v, vs !! Z.to_nat i = Some v /\ distance v (0%R, 0%R) = 1%R.
Proof.
  apply (drawCircle_fan_on_circle 0 0 1 0xFFFFFF 3 initial_state); [lra | lia].
Defined.

(** C1 as stated, for every n >= 3, fails at n = 2^30 - 2: the int
    product numberOfVertices * 2 overflows once the rim has been
    computed, and no vertex is handed to OpenGL. *)
Lemma drawCircle_fan_overflows :
  3 <= 2 ^ 30 - 2 /\
  ~ exists st' vs,
      drawCircle 0%R 0%R 1%R 0xFFFFFF (2 ^ 30 - 2) initial_state = Done (tt, st') /\
      map dc_vertices (issued initial_state st') = [vs] /\
      Z.of_nat (length vs) = 2 ^ 30 - 2 + 2.
Proof.
  split; [lia |]. intros (st' & vs & Hrun & _).
  rewrite drawCircle_overflow in Hrun by lia. discriminate Hrun.
Qed.

(** C2, as amended.  For every side count n from 1 to 2^30 - 3, rim
    vertex i of drawCircle, for i from 1 to n + 1, is
    (x + r cos (i 2pi / n), y + r sin (i 2pi / n)), and so the last rim
    vertex, n + 1, coincides with the first, 1 (GLfloat read as real
    numbers). *)
Theorem drawCircle_rim_formula (x y r : R) (color n : Z) (st : GLState) :
  1 <= n <= 2 ^ 30 - 3 ->
  exists st' vs,
    drawCircle x y r color n st = Done (tt, st') /\
    map dc_vertices (issued st st') = [vs] /\
    (forall i, 1 <= i <= n + 1 ->
       vs !! Z.to_nat i
       = Some ((x + r * cos (IZR i * (2 * PI) / IZR n))%R,
               (y + r * sin (IZR i * (2 * PI) / IZR n))%R)) /\
    vs !! Z.to_nat (n + 1) = vs !! 1%nat.
Proof.
  intros Hn. exists (after_circle x y r n color st), (fan x y r n).
  split; [apply drawCircle_run; lia |].
  unfold issued. rewrite issued_after_circle.
  split; [reflexivity |].
  split; [intros i Hi; rewrite fan_rim by exact Hi; reflexivity |].
  change 1%nat with (Z.to_nat 1).
  rewrite !fan_rim by lia. f_equal. unfold rim_vertex.
  cbn [of_int fadd fmul fdiv fcos fsin M_PI R_arith R_trig].
  assert (Hn0 : IZR n <> 0%R) by (apply not_0_IZR; lia).
  replace (IZR (n + 1) * (2 * PI) / IZR n)%R
    with (1 * (2 * PI) / IZR n + 2 * INR 1 * PI)%R
    by (rewrite plus_IZR; cbn [INR]; field; exact Hn0).
  rewrite cos_period, sin_period. reflexivity.
Qed.

Lemma drawCircle_rim_formula_witness :
  exists st' vs,
    drawCircle 0%R 0%R 1%R 0xFFFFFF 4 initial_state = Done (tt, st') /\
    map dc_vertices (issued initial_state st') = [vs] /\
    (forall i, 1 <= i <= 4 + 1 ->
       vs !! Z.to_nat i
       = Some ((0 + 1 * cos (IZR i * (2 * PI) / IZR 4))%R,
               (0 + 1 * sin (IZR i * (2 * PI) / IZR 4))%R)) /\
    vs !! Z.to_nat (4 + 1) = vs !! 1%nat.
Proof.
  apply (drawCircle_rim_formula 0 0 1 0xFFFFFF 4 initial_state). lia.
Defined.

(** C2 as stated, for every n >= 1, fails at n = 2^30 - 2: the rim
    samples are computed, but numberOfVertices * 2 is no int, the
    routine stops before it has handed a vertex to OpenGL, and there is
    no rim vertex 1. *)
Lemma drawCircle_rim_overflows :
  1 <= 2 ^ 30 - 2 <= INT_MAX /\
  ~ exists st' vs,
      drawCircle 2%R 3%R 1%R 0xFFFFFF (2 ^ 30 - 2) initial_state = Done (tt, st') /\
      map dc_vertices (issued initial_state st') = [vs] /\
      vs !! 1%nat
      = Some ((2 + 1 * cos (IZR 1 * (2 * PI) / IZR (2 ^ 30 - 2)))%R,
              (3 + 1 * sin (IZR 1 * (2 * PI) / IZR (2 ^ 30 - 2)))%R).
Proof.
  split; [unfold INT_MAX; lia |]. intros (st' & vs & Hrun & _).
  rewrite drawCircle_overflow in Hrun by lia. discriminate Hrun.
Qed.

Lemma iterate_ext {S : Type} (body body' : Z -> S -> result S) (n : nat) (i : Z)
    (s : S) :
  (forall j t, body j t = body' j t) ->
  iterate n i body s = iterate n i body' s.
Proof.
  intros Hbody. revert i s. induction n as [|n IH]; intros i s; [reflexivity |].
  cbn [iterate bind Monad_result]. rewrite Hbody.
  destruct (body' i s); [apply IH | reflexivity].
Qed.

(** Replacing the division of the arithmetic by a function that differs
    from it on zero divisors only does not change a run of drawCircle
    with sides <> 0: no quotient by zero is computed. *)
Section Division.
Context {F : Type} {FA : FloatArith F} {FT : FloatTrig F}.
Variable fdiv' : F -> F -> F.
Hypothesis same_quotient : forall a b, b <> of_int 0 -> fdiv' a b = fdiv a b.
Hypothesis of_int_zero : forall n, n <> 0 -> of_int n <> of_int 0.

Lemma channels_with_division (color : Z) :
  channels (FA := with_division FA fdiv') color = channels color.
Proof.
  unfold channels. cbn [with_division of_int fdiv].
  rewrite !same_quotient by (apply of_int_zero; lia). reflexivity.
Qed.

Lemma circleVertices_with_division (x y radius : F) (sides n : Z) :
  sides <> 0 ->
  circleVertices (FA := with_division FA fdiv') x y radius sides n
  = circleVertices x y radius sides n.
Proof.
  intros Hsides. unfold circleVertices. cbn [bind Monad_result].
  destruct (new_array (A:=F) n) as [arr |]; [| reflexivity].
  destruct (store arr 0 x) as [ax |]; [| reflexivity].
  destruct (store arr 0 y) as [ay |]; [| reflexivity].
  unfold for_loop.
  rewrite (iterate_ext
             (rim_body (FA := with_division FA fdiv') x y radius sides
                (fmul (FloatArith := with_division FA fdiv')
                   (of_int (FloatArith := with_division FA fdiv') 2) M_PI))
             (rim_body x y radius sides (fmul (of_int 2) M_PI))).
  - reflexivity.
  - intros j [X Y]. unfold rim_body. cbn [with_division of_int fadd fmul fdiv].
    rewrite same_quotient by (apply of_int_zero; exact Hsides). reflexivity.
Qed.

Lemma drawCircle_with_division (x y radius : F) (color sides : Z) (st : GLState) :
  sides <> 0 ->
  drawCircle (FA := with_division FA fdiv') x y radius color sides st
  = drawCircle x y radius color sides st.
Proof.
  intros Hsides. unfold drawCircle. cbn [bind Monad_GL]. unfold lift.
  destruct (as_int (sides + 2)) as [n |]; [| reflexivity].
  rewrite circleVertices_with_division by exact Hsides.
  destruct (circleVertices x y radius sides n) as [arr |]; [| reflexivity].
  unfold setColor. rewrite channels_with_division. reflexivity.
Qed.

End Division.

(** C8. With sides >= 1 every angle i * 2pi / sides of drawCircle is a
    division by a non-zero number: whatever a division by zero would
    give, the run is the same, provided the conversion of a non-zero
    int is not zero; and for sides up to 2^30 - 3 the routine runs to
    its end.  Nothing rejects or clamps a side count of 0 or below: for
    sides = 0 the routine returns as well, having issued a fan of the
    centre and of one rim vertex computed from the quotient of 2 pi by
    zero, and for sides = -1 it draws a fan of the centre alone. *)
Theorem drawCircle_division {F : Type} {FA : FloatArith F} {FT : FloatTrig F}
    (x y radius : F) (color : Z) (st : GLState) :
  (forall sides (fdiv' : F -> F -> F),
     1 <= sides ->
     (forall n, n <> 0 -> of_int n <> of_int 0) ->
     (forall a b, b <> of_int 0 -> fdiv' a b = fdiv a b) ->
     drawCircle (FA := with_division FA fdiv') x y radius color sides st
     = drawCircle x y radius color sides st) /\
  (forall sides, 1 <= sides <= 2 ^ 30 - 3 ->
     exists st', drawCircle x y radius color sides st = Done (tt, st')) /\
  (exists st',
     drawCircle x y radius color 0 st = Done (tt, st') /\
     map dc_vertices (issued st st')
     = [[(x, y);
         (fadd x (fmul radius
            (fcos (fdiv (fmul (of_int 1) (fmul (of_int 2) M_PI)) (of_int 0)))),
          fadd y (fmul radius
            (fsin (fdiv (fmul (of_int 1) (fmul (of_int 2) M_PI)) (of_int 0)))))]]) /\
  (exists st',
     drawCircle x y radius color (-1) st = Done (tt, st') /\
     map dc_vertices (issued st st') = [[(x, y)]]).
Proof.
  split; [| split; [| split]].
  - intros sides fdiv' Hsides Hconv Hdiv.
    apply drawCircle_with_division; [exact Hdiv | exact Hconv | lia].
  - intros sides Hsides. eexists. apply drawCircle_run. lia.
  - exists (after_circle x y radius 0 color st).
    split; [apply drawCircle_run; lia |].
    unfold issued. rewrite issued_after_circle. reflexivity.
  - exists (after_circle x y radius (-1) color st).
    split; [apply drawCircle_run; lia |].
    unfold issued. rewrite issued_after_circle. reflexivity.
Qed.

Lemma drawCircle_division_witness :
  drawCircle (FA := with_division R_arith (Rdiv_or 7)) 0%R 0%R 1%R 0xFFFFFF 6
    (initial_state (FA := R_arith))
  = drawCircle 0%R 0%R 1%R 0xFFFFFF 6 (initial_state (FA := R_arith)) /\
  exists st', drawCircle 0%R 0%R 1%R 0xFFFFFF 6 initial_state = Done (tt, st').
Proof.
  destruct (drawCircle_division 0%R 0%R 1%R 0xFFFFFF (initial_state (FA := R_arith)))
    as (Hdivision & Hreturn & _).
  split.
  - apply (Hdivision 6 (Rdiv_or 7)); [lia | |].
    + intros n Hn. apply not_0_IZR. exact Hn.
    + intros a b Hb. unfold Rdiv_or.
      destruct (Req_dec_T b 0) as [Hzero | _]; [contradiction | reflexivity].
  - apply Hreturn. lia.
Defined.

(** ** drawText: table accesses, repeated calls, colour *)

Lemma sample_readable (ch : ascii) :
  32 <= char_code (H:=sample_header) ch <= 126 -> readable (H:=sample_header) ch.
Proof. apply readable_in_table. exact sample_table_well_formed. Qed.

Lemma sample_text_readable (ch : ascii) :
  In ch (list_ascii_of_string "A!"%string) -> readable (H:=sample_header) ch.
Proof.
  intros [<- | [<- | []]]; apply sample_readable; vm_compute; split; discriminate.
Qed.

Lemma sample_text_run (color : Z) (st : GLState (F:=R)) :
  drawText (H:=sample_header) 2 0%R 0%R "A!"%string 1 color st
  = Done (tt, paint (H:=sample_header)
                (text_points (H:=sample_header) 1 "A!"%string 0%R 0%R)
                (with_color (channels color) st)).
Proof.
  apply (drawText_real (H:=sample_header) 2 1); [simpl; lia |].
  exact sample_text_readable.
Qed.

(** C7. In a string whose character codes all lie in 32 .. 126 every
    glyph-table access of drawText uses the index c - 32, which lies in
    0 .. 94, inside the table; drawText checks no range, and for a
    character code outside 32 .. 126 the access is out of bounds. *)
Theorem drawText_table_access {F : Type} {FA : FloatArith F} {H : Header} :
  well_formed_table ->
  (forall text : string,
     (forall ch, In ch (list_ascii_of_string text) -> 32 <= char_code ch <= 126) ->
     (forall ch, In ch (list_ascii_of_string text) ->
        0 <= char_code ch - 32 <= 94 /\
        forall i, 0 <= i < 8 -> exists byte, glyph_row ch i = Done byte) /\
     (forall budget (x y : F) size color st e,
        drawText budget x y text size color st = Fault e -> e = OutOfFuel)) /\
  (exists ch, ~ (32 <= char_code ch <= 126) /\
     forall budget (x y : F) rest size color st,
       drawText budget x y (String ch rest) size color st
       = Fault (OutOfBounds (char_code ch - 32))).
Proof.
  intros Htable. split.
  - intros text Htext. split.
    + intros ch Hin. split; [specialize (Htext ch Hin); lia |].
      intros i Hi. apply glyph_row_in_table; auto.
    + intros budget x y size color st e Hrun.
      destruct (drawText_uniform (fun e => e = OutOfFuel) budget x y text size color
                  eq_refl) as [(pts & Hdone) | (e' & He' & Hfault)].
      * intros ch Hin i e0 Hi Hrow.
        destruct (glyph_row_in_table ch i Htable (Htext ch Hin) Hi) as [byte Hbyte].
        congruence.
      * rewrite Hdone in Hrun. discriminate.
      * rewrite Hfault in Hrun. congruence.
  - exists (ascii_of_nat 127).
    assert (Hcode : char_code (ascii_of_nat 127) = 127)
      by (unfold char_code; destruct char_is_signed; reflexivity).
    split; [rewrite Hcode; lia |].
    intros budget x y rest size color st.
    unfold drawText. cbn [bind Monad_GL]. rewrite setColor_run.
    cbn [text_loop bind Monad_GL]. unfold for_loop.
    change (Z.to_nat (8 - 0)) with 8%nat. cbn [iterate bind Monad_GL].
    unfold row_body at 1. cbn [bind Monad_GL]. unfold lift at 1.
    rewrite glyph_row_out_of_table by (try apply Htable; rewrite Hcode; lia).
    reflexivity.
Qed.

Lemma drawText_table_access_witness :
  (forall ch, In ch (list_ascii_of_string "A!"%string) ->
     0 <= char_code (H:=sample_header) ch - 32 <= 94 /\
     forall i, 0 <= i < 8 -> exists byte, glyph_row (H:=sample_header) ch i = Done byte) /\
  (forall budget (x y : R) size color st e,
     drawText (H:=sample_header) budget x y "A!"%string size color st = Fault e ->
     e = OutOfFuel).
Proof.
  apply (proj1 (drawText_table_access (F:=R) (H:=sample_header)
                  sample_table_well_formed) "A!"%string).
  intros ch [<- | [<- | []]]; vm_compute; split; discriminate.
Defined.

Lemma drawCircle_twice {F : Type} {FA : FloatArith F} {FT : FloatTrig F}
    (x y radius : F) (color sides : Z) (st st1 : GLState) :
  drawCircle x y radius color sides st = Done (tt, st1) ->
  gl_calls st1 = gl_calls st ++ issued st st1 /\
  exists st2,
    drawCircle x y radius color sides st1 = Done (tt, st2) /\
    gl_calls st2 = gl_calls st1 ++ issued st1 st2 /\
    issued st1 st2 = issued st st1.
Proof.
  unfold drawCircle. cbn [bind Monad_GL]. unfold lift.
  destruct (as_int (sides + 2)) as [n | e]; [| discriminate].
  destruct (circleVertices x y radius sides n) as [arr | e]; [| discriminate].
  unfold glDrawArrays, glClientState, glVertexPointer, setColor, glColor3f, modify.
  cbn.
  destruct (0 <=? n).
  - destruct (fetch arr 0 (Z.to_nat n)) as [vs | e]; [| discriminate].
    intros Hrun. injection Hrun as <-. unfold issued. cbn.
    rewrite drop_app_length. split; [reflexivity |].
    eexists. split; [reflexivity |]. cbn.
    rewrite (drop_app_length (gl_calls st ++ _)). auto.
  - intros Hrun. injection Hrun as <-. unfold issued. cbn.
    rewrite drop_all, app_nil_r. split; [reflexivity |].
    eexists. split; [reflexivity |]. cbn. rewrite drop_all, app_nil_r. auto.
Qed.

Lemma drawText_twice {F : Type} {FA : FloatArith F} {H : Header}
    (budget : nat) (x y : F) (text : string) (size color : Z) (st st1 : GLState) :
  drawText budget x y text size color st = Done (tt, st1) ->
  gl_calls st1 = gl_calls st ++ issued st st1 /\
  exists st2,
    drawText budget x y text size color st1 = Done (tt, st2) /\
    gl_calls st2 = gl_calls st1 ++ issued st1 st2 /\
    issued st1 st2 = issued st st1.
Proof.
  intros Hrun.
  destruct (drawText_uniform (fun _ => True) budget x y text size color I)
    as [(pts & Hdone) | (e & _ & Hfault)];
    [intros ch _ i e _ _; exact I | | rewrite Hfault in Hrun; discriminate].
  rewrite Hdone in Hrun. injection Hrun as <-.
  assert (Hcalls : forall st0 : GLState,
            gl_calls (paint pts (with_color (channels color) st0))
            = gl_calls st0 ++ issued st0 (paint pts (with_color (channels color) st0))).
  { intros st0. rewrite issued_paint.
    destruct (paint_frame pts (with_color (channels color) st0)) as (_ & _ & _ & ->).
    reflexivity. }
  split; [apply Hcalls |].
  exists (paint pts (with_color (channels color)
                       (paint pts (with_color (channels color) st)))).
  split; [apply Hdone |]. split; [apply Hcalls |].
  rewrite !issued_paint.
  destruct (paint_frame pts (with_color (channels color) st)) as (_ & -> & _).
  reflexivity.
Qed.

(** C9. drawCircle and drawText are deterministic: a second call with
    the arguments of the first, made in the context the first one left,
    issues the same sequence of draw calls, vertex for vertex; what the
    first call changed in the context does not reach the output of the
    second. *)
Theorem draw_twice_same_output {F : Type} {FA : FloatArith F} {FT : FloatTrig F}
    {H : Header} :
  (forall (x y radius : F) (color sides : Z) (st st1 : GLState),
     drawCircle x y radius color sides st = Done (tt, st1) ->
     gl_calls st1 = gl_calls st ++ issued st st1 /\
     exists st2,
       drawCircle x y radius color sides st1 = Done (tt, st2) /\
       gl_calls st2 = gl_calls st1 ++ issued st1 st2 /\
       issued st1 st2 = issued st st1) /\
  (forall (budget : nat) (x y : F) (text : string) (size color : Z)
          (st st1 : GLState),
     drawText budget x y text size color st = Done (tt, st1) ->
     gl_calls st1 = gl_calls st ++ issued st st1 /\
     exists st2,
       drawText budget x y text size color st1 = Done (tt, st2) /\
       gl_calls st2 = gl_calls st1 ++ issued st1 st2 /\
       issued st1 st2 = issued st st1).
Proof.
  split.
  - intros x y radius color sides st st1. apply drawCircle_twice.
  - intros budget x y text size color st st1. apply drawText_twice.
Qed.

Lemma draw_twice_same_output_witness :
  (exists st1 st2 : GLState (F:=R),
     drawCircle 0%R 0%R 1%R 0xFFFFFF 3 initial_state = Done (tt, st1) /\
     drawCircle 0%R 0%R 1%R 0xFFFFFF 3 st1 = Done (tt, st2) /\
     issued st1 st2 = issued initial_state st1) /\
  (exists st1 st2 : GLState (F:=R),
     drawText (H:=sample_header) 2 0%R 0%R "A!"%string 1 0xFF0000 initial_state
     = Done (tt, st1) /\
     drawText (H:=sample_header) 2 0%R 0%R "A!"%string 1 0xFF0000 st1 = Done (tt, st2) /\
     issued st1 st2 = issued initial_state st1).
Proof.
  destruct (draw_twice_same_output (F:=R) (H:=sample_header)) as [Hcircle Htext].
  split.
  - destruct (Hcircle 0%R 0%R 1%R 0xFFFFFF 3 initial_state _
                (drawCircle_run 0%R 0%R 1%R 3 0xFFFFFF initial_state ltac:(lia)))
      as (_ & st2 & Hsecond & _ & Hsame).
    eexists. exists st2. split; [apply drawCircle_run; lia |]. split; assumption.
  - destruct (Htext 2%nat 0%R 0%R "A!"%string 1 0xFF0000 initial_state _
                (sample_text_run 0xFF0000 initial_state))
      as (_ & st2 & Hsecond & _ & Hsame).
    eexists. exists st2. split; [apply sample_text_run |]. split; assumption.
Defined.

(** ** Colours that differ *)

Lemma channel_bit (c k n : Z) :
  0 <= k -> 0 <= n < 8 ->
  Z.testbit (Z.land (Z.shiftr c k) 0xFF) n = Z.testbit c (n + k).
Proof.
  intros Hk Hn. change 0xFF with (Z.ones 8).
  rewrite Z.land_ones, Z.mod_pow2_bits_low, Z.shiftr_spec by lia. reflexivity.
Qed.

Lemma channel_value_inj (a b : Z) : (IZR a / 255 = IZR b / 255)%R -> a = b.
Proof.
  intros Hab. apply eq_IZR. unfold Rdiv in Hab.
  apply Rmult_eq_reg_r in Hab; [exact Hab |].
  apply Rinv_neq_0_compat. lra.
Qed.

Lemma channels_differ (c c' : Z) :
  c mod 2 ^ 24 <> c' mod 2 ^ 24 -> channels (F:=R) c <> channels c'.
Proof.
  intros Hne Heq. apply Hne. clear Hne. unfold channels in Heq.
  cbn [of_int fdiv R_arith] in Heq.
  injection Heq as Hred Hgreen Hblue.
  apply channel_value_inj in Hred, Hgreen, Hblue.
  apply Z.bits_inj'. intros n Hn.
  destruct (Z.lt_ge_cases n 24) as [Hlt | Hge];
    [| rewrite !Z.mod_pow2_bits_high by lia; reflexivity].
  rewrite !Z.mod_pow2_bits_low by lia.
  destruct (Z.lt_ge_cases n 8) as [H8 | H8].
  - pose proof (channel_bit c 0 n ltac:(lia) ltac:(lia)) as Hc.
    pose proof (channel_bit c' 0 n ltac:(lia) ltac:(lia)) as Hc'.
    rewrite Z.shiftr_0_r, Z.add_0_r in Hc, Hc'. congruence.
  - destruct (Z.lt_ge_cases n 16) as [H16 | H16].
    + pose proof (channel_bit c 8 (n - 8) ltac:(lia) ltac:(lia)) as Hc.
      pose proof (channel_bit c' 8 (n - 8) ltac:(lia) ltac:(lia)) as Hc'.
      replace (n - 8 + 8) with n in Hc, Hc' by lia. congruence.
    + pose proof (channel_bit c 16 (n - 16) ltac:(lia) ltac:(lia)) as Hc.
      pose proof (channel_bit c' 16 (n - 16) ltac:(lia) ltac:(lia)) as Hc'.
      replace (n - 16 + 16) with n in Hc, Hc' by lia. congruence.
Qed.

(** ** drawText: where the points of a glyph go *)

Section GlyphPoints.
Context {H : Header}.
Variable size : Z.
#[local] Open Scope R_scope.

Lemma in_block (xpos ypos : R) (p : R * R) :
  In p (block size xpos ypos) <->
  exists i j, (i < Z.to_nat size)%nat /\ (j < Z.to_nat size)%nat /\
              p = (xpos + INR j, ypos + INR i).
Proof.
  unfold block, block_row. rewrite in_flat_map. split.
  - intros (i & Hi & Hp). apply in_map_iff in Hp. destruct Hp as (j & <- & Hj).
    apply in_seq in Hi, Hj. exists i, j. repeat split; lia.
  - intros (i & j & Hi & Hj & ->). exists i. split; [apply in_seq; lia |].
    apply in_map_iff. exists j. split; [reflexivity | apply in_seq; lia].
Qed.

Lemma in_row_points (byte : Z) (x ypos : R) (p : R * R) :
  In p (row_points size byte x ypos) <->
  exists b, (b < 8)%nat /\ Z.testbit byte (7 - Z.of_nat b) = true /\
            In p (block size (x + INR b * IZR size) ypos).
Proof.
  unfold row_points. rewrite in_flat_map. split.
  - intros (b & Hb & Hp). apply in_seq in Hb.
    destruct (Z.testbit byte (7 - Z.of_nat b)) eqn:Hbit; [| destruct Hp].
    exists b. split; [lia |]. split; assumption.
  - intros (b & Hb & Hbit & Hp). exists b. split; [apply in_seq; lia |].
    rewrite Hbit. exact Hp.
Qed.

Lemma in_glyph_points (ch : ascii) (x y : R) (p : R * R) :
  In p (glyph_points size ch x y) <->
  exists r b i j,
    (r < 8)%nat /\ (b < 8)%nat /\
    (i < Z.to_nat size)%nat /\ (j < Z.to_nat size)%nat /\
    Z.testbit (glyph_byte ch r) (7 - Z.of_nat b) = true /\
    p = (x + INR b * IZR size + INR j, y + 8 - INR r * IZR size + INR i).
Proof.
  unfold glyph_points. rewrite in_flat_map. split.
  - intros (r & Hr & Hp). apply in_seq in Hr.
    apply in_row_points in Hp. destruct Hp as (b & Hb & Hbit & Hp).
    apply in_block in Hp. destruct Hp as (i & j & Hi & Hj & ->).
    exists r, b, i, j. repeat split; (lia || assumption).
  - intros (r & b & i & j & Hr & Hb & Hi & Hj & Hbit & ->).
    exists r. split; [apply in_seq; lia |].
    apply in_row_points. exists b. split; [assumption |]. split; [assumption |].
    apply in_block. exists i, j. auto.
Qed.

Lemma drawn_text (budget : nat) (x y : R) (text : string) (color : Z)
    (st : GLState) :
  (Z.to_nat size < budget)%nat ->
  (forall ch, In ch (list_ascii_of_string text) -> readable ch) ->
  drawn (drawText budget x y text size color) st = Done (text_points size text x y).
Proof.
  intros Hbudget Hread. apply drawn_drawText.
  apply text_loop_real; assumption.
Qed.

End GlyphPoints.

(** ** drawText: how many points, and at which coordinates *)

Section TextExtent.
Context {H : Header}.
Variable size : Z.
#[local] Open Scope R_scope.

Lemma in_text_points (text : string) (x y : R) (p : R * R) :
  In p (text_points size text x y) <->
  exists k ch,
    String.get k text = Some ch /\
    In p (glyph_points size ch (x + 8 * IZR size * INR k) y).
Proof.
  revert x. induction text as [|c rest IH]; intros x; cbn [text_points].
  - split; [intros [] | intros (k & ch & Hget & _); destruct k; discriminate].
  - rewrite in_app_iff, IH. split.
    + intros [Hp | (k & ch & Hget & Hp)].
      * exists O, c. split; [reflexivity |].
        cbn [INR]. replace (x + 8 * IZR size * 0) with x by ring. exact Hp.
      * exists (Datatypes.S k), ch. split; [exact Hget |].
        rewrite S_INR.
        replace (x + 8 * IZR size * (INR k + 1))
          with (x + 8 * IZR size + 8 * IZR size * INR k) by ring.
        exact Hp.
    + intros (k & ch & Hget & Hp). destruct k as [|k].
      * left. cbn in Hget. injection Hget as ->.
        cbn [INR] in Hp. replace (x + 8 * IZR size * 0) with x in Hp by ring.
        exact Hp.
      * right. exists k, ch. split; [exact Hget |].
        rewrite S_INR in Hp.
        replace (x + 8 * IZR size * (INR k + 1))
          with (x + 8 * IZR size + 8 * IZR size * INR k) in Hp by ring.
        exact Hp.
Qed.

Lemma get_lt (text : string) (k : nat) (ch : ascii) :
  String.get k text = Some ch -> (k < String.length text)%nat.
Proof.
  revert k. induction text as [|c rest IH]; intros k Hget; [discriminate |].
  destruct k as [|k]; cbn [String.length]; [lia |].
  apply IH in Hget. lia.
Qed.

Lemma text_points_nil (text : string) (x y : R) :
  Z.to_nat size = O -> text_points size text x y = [].
Proof.
  intros Hsize.
  destruct (text_points size text x y) as [|p pts] eqn:Hpts; [reflexivity |].
  assert (Hin : In p (text_points size text x y)) by (rewrite Hpts; left; reflexivity).
  apply in_text_points in Hin. destruct Hin as (k & ch & _ & Hin).
  apply in_glyph_points in Hin.
  destruct Hin as (r & b & i & j & _ & _ & Hi & _). lia.
Qed.

Lemma length_block (xpos ypos : R) :
  length (block size xpos ypos) = (Z.to_nat size * Z.to_nat size)%nat.
Proof.
  unfold block.
  assert (Hrows : forall l : list nat,
            length (flat_map (fun i => block_row size xpos (ypos + INR i)) l)
            = (length l * Z.to_nat size)%nat).
  { induction l as [|i l IH]; [reflexivity |].
    cbn [flat_map length]. rewrite length_app, IH.
    unfold block_row. rewrite length_map, length_seq. lia. }
  rewrite Hrows, length_seq. reflexivity.
Qed.

Lemma length_row_points (byte : Z) (x ypos : R) :
  length (row_points size byte x ypos)
  = (ink_row byte * (Z.to_nat size * Z.to_nat size))%nat.
Proof.
  unfold row_points, ink_row. generalize (seq 0 8). intros l.
  induction l as [|b l IH]; [reflexivity |].
  cbn [flat_map List.filter]. rewrite length_app, IH.
  destruct (Z.testbit byte (7 - Z.of_nat b)); cbn [length].
  - rewrite length_block. cbn [Nat.mul]. reflexivity.
  - reflexivity.
Qed.

Lemma length_glyph_points (ch : ascii) (x y : R) :
  length (glyph_points size ch x y)
  = (ink_glyph ch * (Z.to_nat size * Z.to_nat size))%nat.
Proof.
  unfold glyph_points, ink_glyph. generalize (seq 0 8). intros l.
  induction l as [|r l IH]; [reflexivity |].
  cbn [flat_map map]. rewrite length_app, IH, length_row_points.
  cbn [list_sum fold_right]. rewrite Nat.mul_add_distr_r. reflexivity.
Qed.

Lemma length_text_points (text : string) (x y : R) :
  length (text_points size text x y)
  = (ink text * (Z.to_nat size * Z.to_nat size))%nat.
Proof.
  revert x. induction text as [|c rest IH]; intros x; [reflexivity |].
  cbn [text_points ink]. rewrite length_app, IH, length_glyph_points.
  rewrite Nat.mul_add_distr_r. reflexivity.
Qed.

End TextExtent.



(* started at integer coordinates, drawText draws at integer coordinates *)
Lemma text_points_exact {H : Header} (size x y : Z) (text : string) (p : R * R) :
  In p (text_points size text (IZR x) (IZR y)) ->
  exists k r b i j,
    (k < String.length text)%nat /\ (r < 8)%nat /\ (b < 8)%nat /\
    (i < Z.to_nat size)%nat /\ (j < Z.to_nat size)%nat /\
    p = (IZR (x + 8 * size * Z.of_nat k + Z.of_nat b * size + Z.of_nat j),
         IZR (y + 8 - Z.of_nat r * size + Z.of_nat i)).
Proof.
  intros Hp. apply in_text_points in Hp. destruct Hp as (k & ch & Hget & Hp).
  apply in_glyph_points in Hp.
  destruct Hp as (r & b & i & j & Hr & Hb & Hi & Hj & _ & ->).
  exists k, r, b, i, j. apply get_lt in Hget.
  repeat (split; [assumption |]).
  rewrite !plus_IZR, !minus_IZR, !plus_IZR, !mult_IZR, <- !INR_IZR_INZ.
  f_equal; ring.
Qed.






(** What drawText does for a glyph at any size: the block of row r,
    column b has its lower left point at (x + b size, y + 8 - r size). *)
Lemma drawText_glyph_blocks {H : Header} (budget : nat) (ch : ascii) (x y : R)
    (size color : Z) (st : GLState) :
  readable ch -> (Z.to_nat size < budget)%nat ->
  exists pts,
    drawn (drawText budget x y (String ch EmptyString) size color) st = Done pts /\
    forall p, In p pts <->
      exists r b i j,
        (r < 8)%nat /\ (b < 8)%nat /\
        (i < Z.to_nat size)%nat /\ (j < Z.to_nat size)%nat /\
        Z.testbit (glyph_byte ch r) (7 - Z.of_nat b) = true /\
        p = ((x + INR b * IZR size + INR j)%R,
             (y + 8 - INR r * IZR size + INR i)%R).
Proof.
  intros Hch Hbudget. exists (glyph_points size ch x y). split.
  - rewrite (drawn_text size budget x y (String ch EmptyString) color st Hbudget).
    + cbn [text_points]. rewrite app_nil_r. reflexivity.
    + intros c [<- | []]. exact Hch.
  - intros p. apply in_glyph_points.
Qed.

(** C3, evaluated at size 2.  The specification puts the block of row r
    at height y + 8 size - r size.  For the text "!" at (0, 0) and size
    2, bit 5 of row 0 is set (column 2); its block of 2 x 2 points is
    drawn from (4, 8), the height being y + 8 - r size, and no point of
    the text reaches the height 16 that the specification gives for
    row 0. *)
Theorem drawText_size2_rows_not_scaled :
  exists pts,
    drawn (drawText (H:=sample_header) 3 0%R 0%R "!"%string 2 0xFFFFFF) initial_state
    = Done pts /\
    Z.testbit (glyph_byte (H:=sample_header) "!"%char 0) (7 - 2) = true /\
    In (4, 8)%R pts /\ In (5, 8)%R pts /\ In (4, 9)%R pts /\ In (5, 9)%R pts /\
    ~ In (4, 16)%R pts /\
    forall p, In p pts -> (snd p < 16)%R.
Proof.
  assert (Hbang : readable (H:=sample_header) "!"%char)
    by (apply sample_readable; vm_compute; split; discriminate).
  destruct (drawText_glyph_blocks (H:=sample_header) 3 "!"%char 0 0 2 0xFFFFFF
              initial_state Hbang ltac:(simpl; lia)) as (pts & Hrun & Hpts).
  assert (Hblock : forall i j, (i < 2)%nat -> (j < 2)%nat ->
            In ((4 + INR j)%R, (8 + INR i)%R) pts).
  { intros i j Hi Hj. apply Hpts. exists 0%nat, 2%nat, i, j.
    change (Z.to_nat 2) with 2%nat.
    repeat split; try lia; try reflexivity.
    cbn [INR]. f_equal; lra. }
  assert (Hbelow : forall p, In p pts -> (snd p < 16)%R).
  { intros p Hp. apply Hpts in Hp.
    destruct Hp as (r & b & i & j & _ & _ & Hi & _ & _ & ->).
    change (Z.to_nat 2) with 2%nat in Hi. cbn [snd].
    pose proof (pos_INR r) as Hr.
    assert (Hi1 : (INR i <= 1)%R) by (apply (le_INR i 1); lia).
    lra. }
  exists pts. split; [exact Hrun |]. split; [reflexivity |].
  pose proof (Hblock 0%nat 0%nat ltac:(lia) ltac:(lia)) as H00.
  pose proof (Hblock 0%nat 1%nat ltac:(lia) ltac:(lia)) as H01.
  pose proof (Hblock 1%nat 0%nat ltac:(lia) ltac:(lia)) as H10.
  pose proof (Hblock 1%nat 1%nat ltac:(lia) ltac:(lia)) as H11.
  cbn [INR] in H00, H01, H10, H11.
  replace (4 + 0)%R with 4%R in * by lra. replace (8 + 0)%R with 8%R in * by lra.
  replace (4 + 1)%R with 5%R in * by lra. replace (8 + 1)%R with 9%R in * by lra.
  repeat split; try assumption.
  intros Hin. apply Hbelow in Hin. cbn [snd] in Hin. lra.
Qed.

(** C10. drawText sets the colour of the context to its colour argument
    once, on entry; every point it then draws goes through drawPoint
    with drawPoint's default colour, which sets the colour of the
    context again before the point is issued.  For every float
    arithmetic each call a returning drawText has issued is a GL_POINTS
    call in the default colour of drawPoint, and the colour given to
    drawText is what the context holds only when no point was drawn.
    For integer coordinates within 2^24, where binary32 computes what
    the reals compute, drawText does issue these calls: one per point
    of the text, size * size for each set bit of its glyphs, none of
    them in the colour given to drawText when that colour and the
    default differ in their low 24 bits. *)
Theorem drawText_points_in_default_color {H : Header} :
  (forall (F : Type) (FA : FloatArith F) (budget : nat) (x y : F) (text : string)
          (size color : Z) (st st' : GLState),
     drawText budget x y text size color st = Done (tt, st') ->
     Forall (fun call => dc_mode call = GL_POINTS /\ dc_color call = channels White)
       (issued st st') /\
     (issued st st' = [] -> gl_color st' = channels color)) /\
  (forall (budget : nat) (x y : Z) (text : string) (size color : Z)
          (st : GLState (F:=R)),
     exact_text_range x y size (String.length text) ->
     (Z.to_nat size < budget)%nat ->
     (forall ch, In ch (list_ascii_of_string text) -> readable ch) ->
     exists st',
       drawText budget (IZR x) (IZR y) text size color st = Done (tt, st') /\
       issued st st'
       = map (text_point (gl_point_smooth st)) (text_points size text (IZR x) (IZR y)) /\
       length (issued st st') = (ink text * (Z.to_nat size * Z.to_nat size))%nat /\
       (White mod 2 ^ 24 <> color mod 2 ^ 24 ->
        Forall (fun call => dc_color call <> channels color) (issued st st'))).
Proof.
  split.
  - intros F FA budget x y text size color st st' Hrun.
    destruct (drawText_uniform (fun _ => True) budget x y text size color I)
      as [(pts & Hdone) | (e & _ & Hfault)];
      [intros ch _ i e _ _; exact I | | rewrite Hfault in Hrun; discriminate].
    rewrite Hdone in Hrun. injection Hrun as <-. rewrite issued_paint. split.
    + apply List.Forall_forall. intros call Hin.
      apply in_map_iff in Hin. destruct Hin as (p & <- & _). split; reflexivity.
    + intros Hnil. apply map_eq_nil in Hnil. subst pts. reflexivity.
  - intros budget x y text size color st _ Hbudget Hread.
    eexists. split; [apply (drawText_real budget size Hbudget); exact Hread |].
    rewrite issued_paint. split; [reflexivity |].
    split; [rewrite length_map; apply length_text_points |].
    intros Hdiff. apply List.Forall_forall. intros call Hin.
    apply in_map_iff in Hin. destruct Hin as (p & <- & _).
    cbn [text_point dc_color]. apply channels_differ. exact Hdiff.
Qed.

Lemma drawText_points_in_default_color_witness :
  exists st' : GLState (F:=R),
    drawText (H:=sample_header) 3 (IZR 0) (IZR 0) "A!"%string 2 0xFF0000 initial_state
    = Done (tt, st') /\
    length (issued initial_state st') = 176%nat /\
    Forall (fun call => dc_mode call = GL_POINTS /\ dc_color call = channels 0xFFFFFF)
      (issued initial_state st') /\
    Forall (fun call => dc_color call <> channels 0xFF0000) (issued initial_state st').
Proof.
  destruct (drawText_points_in_default_color (H:=sample_header)) as [Hwhite Hdrawn].
  destruct (Hdrawn 3%nat 0 0 "A!"%string 2 0xFF0000 initial_state)
    as (st' & Hrun & _ & Hcount & Hdiffer).
  - unfold exact_text_range, exact24. cbn [String.length]. lia.
  - simpl. lia.
  - exact sample_text_readable.
  - exists st'. split; [exact Hrun |]. split; [exact Hcount |].
    split; [exact (proj1 (Hwhite R R_arith _ _ _ _ _ _ _ _ Hrun)) |].
    apply Hdiffer. vm_compute. discriminate.
Defined.

(** ** The routines run on sample inputs, in rational arithmetic *)

Example setColor_sample :
  channels (F:=Q) 0xFF8040 = (1, 128 # 255, 64 # 255)%Q.
Proof. reflexivity. Qed.

Example drawText_bang_size2 :
  drawn (drawText (F:=Q) (H:=sample_header) 3 0%Q 0%Q "!"%string 2 0xFF0000)
    initial_state
  = Done (map (fun p => (inject_Z (fst p), inject_Z (snd p)))
      [ (4, 8); (5, 8); (4, 9); (5, 9); (6, 8); (7, 8); (6, 9); (7, 9);
        (2, 6); (3, 6); (2, 7); (3, 7); (4, 6); (5, 6); (4, 7); (5, 7);
        (6, 6); (7, 6); (6, 7); (7, 7); (8, 6); (9, 6); (8, 7); (9, 7);
        (2, 4); (3, 4); (2, 5); (3, 5); (4, 4); (5, 4); (4, 5); (5, 5);
        (6, 4); (7, 4); (6, 5); (7, 5); (8, 4); (9, 4); (8, 5); (9, 5);
        (4, 2); (5, 2); (4, 3); (5, 3); (6, 2); (7, 2); (6, 3); (7, 3);
        (4, 0); (5, 0); (4, 1); (5, 1); (6, 0); (7, 0); (6, 1); (7, 1);
        (4, -4); (5, -4); (4, -3); (5, -3); (6, -4); (7, -4); (6, -3); (7, -3) ]).
Proof. vm_compute. reflexivity. Qed.

Example drawText_colour_sample :
  match drawText (F:=Q) (H:=sample_header) 2 0%Q 0%Q "A"%string 1 0xFF0000 initial_state with
  | Done (_, st) => forallb (fun call =>
      match dc_color call with
      | (r, g, b) => Qeq_bool r 1 && Qeq_bool g 1 && Qeq_bool b 1
      end) (gl_calls st)
  | Fault _ => false
  end = true.
Proof. vm_compute. reflexivity. Qed.

Example drawText_out_of_table :
  drawText (F:=Q) (H:=sample_header) 2 0%Q 0%Q
    (String "~" (String (ascii_of_nat 127) EmptyString)) 1 0 initial_state
  = Fault (OutOfBounds 95).
Proof. vm_compute. reflexivity. Qed.

(** * Further properties of the routines *)

(** ** drawQuad and drawPoint *)

Lemma drawQuad_run {F : Type} {FA : FloatArith F}
    (x y width height : F) (color : Z) (st : GLState) :
  drawQuad x y width height color st = Done (tt, after_quad x y width height color st).
Proof. destruct st. reflexivity. Qed.

Lemma issued_after_quad {F : Type} {FA : FloatArith F}
    (x y width height : F) (color : Z) (st : GLState) :
  issued st (after_quad x y width height color st)
  = [ {| dc_mode := GL_QUADS;
         dc_vertices := quad_corners x y width height;
         dc_color := channels color;
         dc_point_size := gl_point_size st;
         dc_point_smooth := gl_point_smooth st |} ].
Proof. unfold issued. cbn [after_quad gl_calls]. apply drop_app_length. Qed.

(** X1. drawQuad returns for every input and issues exactly one
    GL_QUADS primitive: the corners bottom left, bottom right, top
    right, top left, in this order, in the colour decoded from its
    colour argument.  It leaves the colour of the context changed and
    the vertex array disabled, and does not touch the point attributes
    or the attribute stack. *)
Theorem drawQuad_issues_quad {F : Type} {FA : FloatArith F}
    (x y width height : F) (color : Z) (st : GLState) :
  exists st',
    drawQuad x y width height color st = Done (tt, st') /\
    issued st st'
    = [ {| dc_mode := GL_QUADS;
           dc_vertices := quad_corners x y width height;
           dc_color := channels color;
           dc_point_size := gl_point_size st;
           dc_point_smooth := gl_point_smooth st |} ] /\
    gl_color st' = channels color /\
    gl_vertex_array st' = false /\
    gl_point_size st' = gl_point_size st /\
    gl_point_smooth st' = gl_point_smooth st /\
    gl_attrib_stack st' = gl_attrib_stack st.
Proof.
  exists (after_quad x y width height color st).
  split; [apply drawQuad_run |]. split; [apply issued_after_quad |].
  repeat split.
Qed.

(** X2. Over the reals the shoelace sum of the vertices of drawQuad is
    2 * width * height: the quad runs counter-clockwise when width and
    height have the same sign, clockwise when exactly one of them is
    negative, and is degenerate when one of them is zero. *)
Theorem drawQuad_signed_area (x y width height : R) (color : Z) (st : GLState) :
  exists st' vs,
    drawQuad x y width height color st = Done (tt, st') /\
    map dc_vertices (issued st st') = [vs] /\
    shoelace vs = (2 * (width * height))%R.
Proof.
  exists (after_quad x y width height color st), (quad_corners x y width height).
  split; [apply drawQuad_run |]. rewrite issued_after_quad.
  split; [reflexivity |].
  unfold shoelace, quad_corners. cbn [fst snd fadd R_arith]. ring.
Qed.

(** X3. drawPoint returns for every input and restores what it sets for
    the point: the point size, the smoothing flag and the attribute
    stack of the context are after the call what they were before it,
    whatever size and smooth are.  The colour is not restored: the
    context is left with the colour of the point, and with the vertex
    array disabled. *)
Theorem drawPoint_restores_point_attributes {F : Type} {FA : FloatArith F}
    (x y size : F) (color : Z) (smooth : bool) (st : GLState) :
  exists st',
    drawPoint x y size color smooth st = Done (tt, st') /\
    gl_point_size st' = gl_point_size st /\
    gl_point_smooth st' = gl_point_smooth st /\
    gl_attrib_stack st' = gl_attrib_stack st /\
    gl_color st' = channels color /\
    gl_vertex_array st' = false.
Proof.
  exists (after_point x y size color smooth st).
  split; [apply drawPoint_run |]. repeat split.
Qed.

(** X4. drawPoint issues one GL_POINTS primitive with the vertex (x, y),
    the size and the colour it is given.  The point is smoothed when
    smooth is true or when smoothing is already enabled in the context:
    smooth = false does not switch smoothing off. *)
Theorem drawPoint_smoothing {F : Type} {FA : FloatArith F}
    (x y size : F) (color : Z) (smooth : bool) (st : GLState) :
  exists st',
    drawPoint x y size color smooth st = Done (tt, st') /\
    issued st st'
    = [ {| dc_mode := GL_POINTS;
           dc_vertices := [(x, y)];
           dc_color := channels color;
           dc_point_size := size;
           dc_point_smooth := smooth || gl_point_smooth st |} ].
Proof.
  exists (after_point x y size color smooth st).
  split; [apply drawPoint_run |].
  unfold issued. cbn [after_point gl_calls]. rewrite drop_app_length.
  destruct smooth; reflexivity.
Qed.

(** ** drawCircle: side counts and radii outside the claims *)

(** X5. drawCircle does not survive a side count below -1: for
    sides = -2 the two coordinate arrays have length 0 and the write of
    the centre at index 0 is out of bounds; for sides <= -3 the length
    sides + 2 given to new[] is negative.  Nothing is drawn in either
    case. *)
Theorem drawCircle_negative_sides {F : Type} {FA : FloatArith F} {FT : FloatTrig F}
    (x y radius : F) (color : Z) (st : GLState) :
  drawCircle x y radius color (-2) st = Fault (OutOfBounds 0) /\
  forall sides, sides <= -3 ->
    drawCircle x y radius color sides st = Fault (BadAlloc (sides + 2)).
Proof.
  split; [reflexivity |].
  intros sides Hsides. unfold drawCircle. cbn [bind Monad_GL]. unfold lift.
  rewrite (as_int_Done (sides + 2)) by (unfold INT_MAX; lia).
  unfold circleVertices, new_array.
  destruct (Z.ltb_spec (sides + 2) 0); [reflexivity | lia].
Qed.

Lemma drawCircle_negative_sides_witness :
  -5 <= -3 /\
  drawCircle 0%R 0%R 1%R 0xFFFFFF (-5) initial_state = Fault (BadAlloc (-5 + 2)).
Proof.
  split; [lia |].
  apply (proj2 (drawCircle_negative_sides 0%R 0%R 1%R 0xFFFFFF initial_state)). lia.
Defined.

Lemma distance_rim_abs (x y r a : R) :
  distance ((x + r * cos a)%R, (y + r * sin a)%R) (x, y) = Rabs r.
Proof.
  unfold distance. cbn [fst snd].
  replace ((x + r * cos a - x) ^ 2 + (y + r * sin a - y) ^ 2)%R
    with (Rsqr r * ((sin a)² + (cos a)²))%R by (unfold Rsqr; ring).
  rewrite sin2_cos2, Rmult_1_r. apply sqrt_Rsqr_abs.
Qed.

(** X6. drawCircle accepts any radius.  Over the reals, for sides from
    1 to 2^30 - 3 every rim vertex lies at distance |radius| from the
    centre, for a negative radius as for a positive one; with radius 0
    all sides + 2 vertices are the centre. *)
Theorem drawCircle_any_radius (x y r : R) (color n : Z) (st : GLState) :
  1 <= n <= 2 ^ 30 - 3 ->
  exists st' vs,
    drawCircle x y r color n st = Done (tt, st') /\
    map dc_vertices (issued st st') = [vs] /\
    (forall i, 1 <= i <= n + 1 ->
       exists v, vs !! Z.to_nat i = Some v /\ distance v (x, y) = Rabs r) /\
    (r = 0%R -> forall v, In v vs -> v = (x, y)).
Proof.
  intros Hn. exists (after_circle x y r n color st), (fan x y r n).
  split; [apply drawCircle_run; lia |].
  unfold issued. rewrite issued_after_circle.
  split; [reflexivity |]. split.
  - intros i Hi. exists (rim_vertex x y r n i).
    split; [apply fan_rim; lia |]. apply distance_rim_abs.
  - intros -> v [<- | Hin]; [reflexivity |].
    apply in_map_iff in Hin. destruct Hin as (j & <- & _).
    unfold rim_vertex. cbn [of_int fadd fmul fdiv fcos fsin M_PI R_arith R_trig].
    f_equal; ring.
Qed.

Lemma drawCircle_any_radius_witness :
  exists st' vs,
    drawCircle 0%R 0%R (-2)%R 0xFFFFFF 6 initial_state = Done (tt, st') /\
    map dc_vertices (issued initial_state st') = [vs] /\
    (forall i, 1 <= i <= 6 + 1 ->
       exists v, vs !! Z.to_nat i = Some v /\ distance v (0%R, 0%R) = Rabs (-2)) /\
    ((-2)%R = 0%R -> forall v, In v vs -> v = (0%R, 0%R)).
Proof.
  apply (drawCircle_any_radius 0 0 (-2) 0xFFFFFF 6 initial_state). lia.
Defined.

Lemma chord_length (x y r a t : R) :
  (0 <= sin t)%R ->
  distance ((x + r * cos a)%R, (y + r * sin a)%R)
           ((x + r * cos (a + 2 * t))%R, (y + r * sin (a + 2 * t))%R)
  = (2 * Rabs r * sin t)%R.
Proof.
  intros Hsin. unfold distance. cbn [fst snd].
  pose proof (sin2_cos2 a) as Ha. pose proof (sin2_cos2 (a + 2 * t)) as Hb.
  pose proof (cos_minus (a + 2 * t) a) as Hc.
  replace (a + 2 * t - a)%R with (2 * t)%R in Hc by ring.
  rewrite cos_2a_sin in Hc. unfold Rsqr in Ha, Hb.
  replace ((x + r * cos a - (x + r * cos (a + 2 * t))) ^ 2 +
           (y + r * sin a - (y + r * sin (a + 2 * t))) ^ 2)%R
    with (Rsqr (2 * Rabs r * sin t)).
  - apply sqrt_Rsqr.
    apply Rmult_le_pos; [| exact Hsin].
    apply Rmult_le_pos; [lra | apply Rabs_pos].
  - unfold Rsqr.
    replace (2 * Rabs r * sin t * (2 * Rabs r * sin t))%R
      with (Rabs r ^ 2 * (4 * (sin t * sin t)))%R by ring.
    rewrite pow2_abs.
    replace (4 * (sin t * sin t))%R
      with (2 - 2 * (cos (a + 2 * t) * cos a + sin (a + 2 * t) * sin a))%R by lra.
    replace 2%R
      with (sin a * sin a + cos a * cos a +
            (sin (a + 2 * t) * sin (a + 2 * t) + cos (a + 2 * t) * cos (a + 2 * t)))%R
      at 1 by lra.
    ring.
Qed.

(** X7. Over the reals and for sides from 1 to 2^30 - 3, any two
    consecutive rim vertices of drawCircle are
    2 |radius| sin (pi / sides) apart: the rim is a regular polygon, all
    its sides have one length. *)
Theorem drawCircle_equal_chords (x y r : R) (color n : Z) (st : GLState) :
  1 <= n <= 2 ^ 30 - 3 ->
  exists st' vs,
    drawCircle x y r color n st = Done (tt, st') /\
    map dc_vertices (issued st st') = [vs] /\
    forall i, 1 <= i <= n ->
      exists u v,
        vs !! Z.to_nat i = Some u /\ vs !! Z.to_nat (i + 1) = Some v /\
        distance u v = (2 * Rabs r * sin (PI / IZR n))%R.
Proof.
  intros Hn. exists (after_circle x y r n color st), (fan x y r n).
  split; [apply drawCircle_run; lia |].
  unfold issued. rewrite issued_after_circle.
  split; [reflexivity |].
  intros i Hi. exists (rim_vertex x y r n i), (rim_vertex x y r n (i + 1)).
  split; [apply fan_rim; lia |]. split; [apply fan_rim; lia |].
  assert (Hn0 : IZR n <> 0%R) by (apply not_0_IZR; lia).
  assert (Hn1 : (1 <= IZR n)%R) by (apply IZR_le; lia).
  unfold rim_vertex. cbn [of_int fadd fmul fdiv fcos fsin M_PI R_arith R_trig].
  replace (IZR (i + 1) * (2 * PI) / IZR n)%R
    with (IZR i * (2 * PI) / IZR n + 2 * (PI / IZR n))%R
    by (rewrite plus_IZR; field; exact Hn0).
  apply chord_length.
  pose proof PI_RGT_0 as Hpi.
  apply sin_ge_0.
  - apply Rmult_le_pos; [lra |]. apply Rlt_le, Rinv_0_lt_compat. lra.
  - apply Rmult_le_reg_r with (IZR n); [lra |].
    unfold Rdiv. rewrite Rmult_assoc, Rinv_l by exact Hn0. nra.
Qed.

Lemma drawCircle_equal_chords_witness :
  exists st' vs,
    drawCircle 0%R 0%R 1%R 0xFFFFFF 6 initial_state = Done (tt, st') /\
    map dc_vertices (issued initial_state st') = [vs] /\
    forall i, 1 <= i <= 6 ->
      exists u v,
        vs !! Z.to_nat i = Some u /\ vs !! Z.to_nat (i + 1) = Some v /\
        distance u v = (2 * Rabs 1 * sin (PI / IZR 6))%R.
Proof.
  apply (drawCircle_equal_chords 0 0 1 0xFFFFFF 6 initial_state). lia.
Defined.

(** X8. A side count of 1 or 2 is accepted and gives nothing to fill:
    over the reals every vertex of the fan then has the ordinate of the
    centre, so that hub and rim lie on one horizontal line. *)
Theorem drawCircle_one_or_two_sides (x y r : R) (color n : Z) (st : GLState) :
  n = 1 \/ n = 2 ->
  exists st' vs,
    drawCircle x y r color n st = Done (tt, st') /\
    map dc_vertices (issued st st') = [vs] /\
    Z.of_nat (length vs) = n + 2 /\
    forall v, In v vs -> snd v = y.
Proof.
  intros Hn. exists (after_circle x y r n color st), (fan x y r n).
  split; [apply drawCircle_run; lia |].
  unfold issued. rewrite issued_after_circle.
  split; [reflexivity |]. split; [apply length_fan; lia |].
  intros v [<- | Hin]; [reflexivity |].
  apply in_map_iff in Hin. destruct Hin as (j & <- & _).
  unfold rim_vertex. cbn [snd of_int fadd fmul fdiv fcos fsin M_PI R_arith R_trig].
  assert (Hsin : sin (IZR (1 + Z.of_nat j) * (2 * PI) / IZR n) = 0%R).
  { apply sin_eq_0_1. destruct Hn as [-> | ->].
    - exists (2 * (1 + Z.of_nat j)). rewrite mult_IZR. field.
    - exists (1 + Z.of_nat j). field. }
  rewrite Hsin. ring.
Qed.

Lemma drawCircle_one_or_two_sides_witness :
  exists st' vs,
    drawCircle 0%R 0%R 1%R 0xFFFFFF 2 initial_state = Done (tt, st') /\
    map dc_vertices (issued initial_state st') = [vs] /\
    Z.of_nat (length vs) = 2 + 2 /\
    forall v, In v vs -> snd v = 0%R.
Proof.
  apply (drawCircle_one_or_two_sides 0 0 1 0xFFFFFF 2 initial_state). right. reflexivity.
Defined.

(** ** drawText: what is drawn, how much, where, and when it stops *)

Lemma text_loop_out_of_table {F : Type} {FA : FloatArith F} {H : Header}
    (budget : nat) (ch : ascii) (rest : string) (x y : F) (xpos : option F)
    (size : Z) (st : GLState) :
  length CHARACTERS = 95%nat -> ~ (32 <= char_code ch <= 126) ->
  text_loop budget (String ch rest) x y xpos size st
  = Fault (OutOfBounds (char_code ch - 32)).
Proof.
  intros Hlen Hch. cbn [text_loop bind Monad_GL]. unfold for_loop.
  change (Z.to_nat (8 - 0)) with 8%nat. cbn [iterate bind Monad_GL].
  unfold row_body at 1. cbn [bind Monad_GL]. unfold lift at 1.
  rewrite glyph_row_out_of_table by assumption. reflexivity.
Qed.

Lemma text_loop_stops {H : Header} (budget : nat) (size : Z) (pre : string)
    (ch : ascii) (rest : string) (x y : R) (xpos : option R) (st : GLState) :
  (Z.to_nat size < budget)%nat ->
  (forall c, In c (list_ascii_of_string pre) -> readable c) ->
  length CHARACTERS = 95%nat -> ~ (32 <= char_code ch <= 126) ->
  text_loop budget (pre ++ String ch rest) x y xpos size st
  = Fault (OutOfBounds (char_code ch - 32)).
Proof.
  intros Hbudget Hpre Hlen Hch. revert x xpos st Hpre.
  induction pre as [|c pre IH]; intros x xpos st Hpre.
  - apply text_loop_out_of_table; assumption.
  - change (String c pre ++ String ch rest)%string
      with (String c (pre ++ String ch rest)).
    cbn [text_loop bind Monad_GL].
    rewrite (row_loop_real budget size Hbudget c x y xpos
               (Hpre c (or_introl eq_refl))).
    cbn [lift local].
    apply IH. intros c' Hin. apply Hpre. right. exact Hin.
Qed.

(** X9. drawText draws nothing for the empty string and for a size of
    zero or less: no draw call is issued, and the context is left as
    setColor (color) alone leaves it (GLfloat read as real numbers). *)
Theorem drawText_draws_nothing {H : Header} (budget : nat) (x y : R)
    (text : string) (size color : Z) (st : GLState) :
  text = EmptyString \/ size <= 0 ->
  (0 < budget)%nat ->
  (forall ch, In ch (list_ascii_of_string text) -> readable ch) ->
  drawText budget x y text size color st = setColor color st /\
  exists st', drawText budget x y text size color st = Done (tt, st') /\
              issued st st' = [].
Proof.
  intros Hcase Hbudget Hread.
  assert (Hrun : drawText budget x y text size color st
                 = Done (tt, with_color (channels color) st)).
  { destruct Hcase as [-> | Hsize]; [reflexivity |].
    rewrite (drawText_real budget size ltac:(lia) x y text color st Hread).
    rewrite text_points_nil by lia. reflexivity. }
  split; [rewrite Hrun, setColor_run; reflexivity |].
  eexists. split; [exact Hrun |].
  unfold issued. cbn [with_color gl_calls]. apply drop_all.
Qed.

Lemma drawText_draws_nothing_witness :
  drawText (H:=sample_header) 1 0%R 0%R "A!"%string 0 0xFF0000 initial_state
  = setColor 0xFF0000 initial_state /\
  exists st',
    drawText (H:=sample_header) 1 0%R 0%R "A!"%string 0 0xFF0000 initial_state
    = Done (tt, st') /\
    issued initial_state st' = [].
Proof.
  apply (drawText_draws_nothing (H:=sample_header) 1 0%R 0%R "A!"%string 0 0xFF0000
           initial_state); [right; lia | lia | exact sample_text_readable].
Defined.



(** X11. For integer coordinates within 2^24 and size >= 1 every point
    drawText draws has integer coordinates (px, py) in the box
    x <= px <= x + 8 size length - 1,
    y + 8 - 7 size <= py <= y + 7 + size:
    the text extends to the right of x by 8 size per character, and
    vertically from y + 8 - 7 size up to y + 7 + size; all of them are
    integers binary32 holds exactly. *)
Theorem drawText_bounding_box {H : Header} (budget : nat) (x y : Z)
    (text : string) (size color : Z) (st : GLState) :
  1 <= size ->
  exact_text_range x y size (String.length text) ->
  (Z.to_nat size < budget)%nat ->
  (forall ch, In ch (list_ascii_of_string text) -> readable ch) ->
  exists pts,
    drawn (drawText budget (IZR x) (IZR y) text size color) st = Done pts /\
    forall p, In p pts ->
      exists px py,
        p = (IZR px, IZR py) /\
        x <= px <= x + 8 * size * Z.of_nat (String.length text) - 1 /\
        y + 8 - 7 * size <= py <= y + 7 + size /\
        exact24 px /\ exact24 py.
Proof.
  intros Hsize Hrange Hbudget Hread.
  exists (text_points size text (IZR x) (IZR y)).
  split; [apply drawn_text; assumption |].
  intros p Hp. apply text_points_exact in Hp.
  destruct Hp as (k & r & b & i & j & Hk & Hr & Hb & Hi & Hj & ->).
  eexists. eexists. split; [reflexivity |].
  destruct Hrange as (_ & Hx & Hxmax & Hy & Hymin & Hymax).
  unfold exact24 in *.
  assert (Hbox :
    x <= x + 8 * size * Z.of_nat k + Z.of_nat b * size + Z.of_nat j
      <= x + 8 * size * Z.of_nat (String.length text) - 1 /\
    y + 8 - 7 * size <= y + 8 - Z.of_nat r * size + Z.of_nat i <= y + 7 + size)
    by (split; nia).
  split; [apply Hbox |]. split; [apply Hbox |]. split; lia.
Qed.

Lemma drawText_bounding_box_witness :
  exists pts,
    drawn (drawText (H:=sample_header) 3 (IZR 0) (IZR 0) "A!"%string 2 0xFF0000)
      initial_state = Done pts /\
    forall p, In p pts ->
      exists px py,
        p = (IZR px, IZR py) /\
        0 <= px <= 0 + 8 * 2 * Z.of_nat (String.length "A!") - 1 /\
        0 + 8 - 7 * 2 <= py <= 0 + 7 + 2 /\
        exact24 px /\ exact24 py.
Proof.
  apply (drawText_bounding_box (H:=sample_header) 3 0 0 "A!"%string 2 0xFF0000
           initial_state);
    [lia | unfold exact_text_range, exact24; cbn [String.length]; lia
    | simpl; lia | exact sample_text_readable].
Defined.

(** X12. drawText stops at the first character whose code is outside
    32 .. 126, wherever it stands in the string.  For integer
    coordinates within 2^24 and a prefix of characters of the table,
    the call on the prefix alone returns, having drawn its points; the
    call on the whole string gets past the prefix and reads the glyph
    table (95 glyphs) at index code - 32, out of bounds, negative for a
    code below 32. *)
Theorem drawText_stops_at_first_bad_character {H : Header} (budget : nat) (x y : Z)
    (pre : string) (ch : ascii) (rest : string) (size color : Z) (st : GLState) :
  length CHARACTERS = 95%nat ->
  exact_text_range x y size (String.length pre) ->
  (Z.to_nat size < budget)%nat ->
  (forall c, In c (list_ascii_of_string pre) -> readable c) ->
  ~ (32 <= char_code ch <= 126) ->
  (exists st',
     drawText budget (IZR x) (IZR y) pre size color st = Done (tt, st') /\
     length (issued st st') = (ink pre * (Z.to_nat size * Z.to_nat size))%nat) /\
  drawText budget (IZR x) (IZR y) (pre ++ String ch rest) size color st
  = Fault (OutOfBounds (char_code ch - 32)) /\
  ~ (0 <= char_code ch - 32 < 95).
Proof.
  intros Hlen _ Hbudget Hpre Hch. split; [| split; [| lia]].
  - eexists. split; [apply (drawText_real budget size Hbudget); exact Hpre |].
    rewrite issued_paint, length_map. apply length_text_points.
  - unfold drawText. cbn [bind Monad_GL]. rewrite setColor_run.
    apply text_loop_stops; assumption.
Qed.

Lemma drawText_stops_at_first_bad_character_witness :
  (exists st',
     drawText (H:=sample_header) 2 (IZR 0) (IZR 0) "A!"%string 1 0xFF0000 initial_state
     = Done (tt, st') /\
     length (issued initial_state st') = 44%nat) /\
  drawText (H:=sample_header) 2 (IZR 0) (IZR 0)
    ("A!" ++ String (ascii_of_nat 10) "A")%string 1 0xFF0000 initial_state
  = Fault (OutOfBounds (char_code (H:=sample_header) (ascii_of_nat 10) - 32)) /\
  ~ (0 <= char_code (H:=sample_header) (ascii_of_nat 10) - 32 < 95).
Proof.
  apply (drawText_stops_at_first_bad_character (H:=sample_header) 2 0 0
           "A!"%string (ascii_of_nat 10) "A"%string 1 0xFF0000 initial_state);
    [reflexivity | unfold exact_text_range, exact24; cbn [String.length]; lia
    | simpl; lia | exact sample_text_readable |].
  vm_compute. intros [Hlo _]. apply Hlo. reflexivity.
Defined.

(** ** setColor: packing and unpacking *)

Lemma unpack_pack (red green blue : Z) :
  0 <= red <= 255 -> 0 <= green <= 255 -> 0 <= blue <= 255 ->
  Z.land (Z.shiftr (pack red green blue) 16) 0xFF = red /\
  Z.land (Z.shiftr (pack red green blue) 8) 0xFF = green /\
  Z.land (pack red green blue) 0xFF = blue.
Proof.
  intros Hr Hg Hb.
  pose proof (land_shiftr_field (pack red green blue) 0 ltac:(lia)) as H0.
  rewrite Z.shiftr_0_r in H0.
  rewrite !land_shiftr_field, H0 by lia. unfold pack.
  change (2 ^ 16) with 65536. change (2 ^ 8) with 256. change (2 ^ 0) with 1.
  repeat split; Z.div_mod_to_equations; lia.
Qed.

(** X13. setColor undoes the packing 0xRRGGBB: for three bytes the
    channels of red * 2^16 + green * 2^8 + blue are red / 255,
    green / 255 and blue / 255; and two packed colours decode to the
    same channels exactly when they agree in their low 24 bits (GLfloat
    read as real numbers). *)
Theorem setColor_unpacks (red green blue : Z) :
  0 <= red <= 255 -> 0 <= green <= 255 -> 0 <= blue <= 255 ->
  channels (pack red green blue)
  = ((IZR red / 255)%R, (IZR green / 255)%R, (IZR blue / 255)%R) /\
  forall c c', channels (F:=R) c = channels c' <-> c mod 2 ^ 24 = c' mod 2 ^ 24.
Proof.
  intros Hr Hg Hb. split.
  - destruct (unpack_pack red green blue Hr Hg Hb) as (Hred & Hgreen & Hblue).
    unfold channels. rewrite Hred, Hgreen, Hblue. reflexivity.
  - intros c c'. split.
    + intros Heq. destruct (Z.eq_dec (c mod 2 ^ 24) (c' mod 2 ^ 24)) as [|Hne];
        [assumption |].
      exfalso. exact (channels_differ c c' Hne Heq).
    + intros Heq. rewrite <- (channels_mod c), <- (channels_mod c'), Heq.
      reflexivity.
Qed.

Lemma setColor_unpacks_witness :
  channels (pack 255 128 64)
  = ((IZR 255 / 255)%R, (IZR 128 / 255)%R, (IZR 64 / 255)%R) /\
  forall c c', channels (F:=R) c = channels c' <-> c mod 2 ^ 24 = c' mod 2 ^ 24.
Proof.
  apply (setColor_unpacks 255 128 64); lia.
Defined.

(** ** getKey *)

Ltac key_cases glfwGetKey :=
  destruct (glfwGetKey GLFW_KEY_ESCAPE =? GLFW_PRESS) eqn:Hesc;
  [| destruct (glfwGetKey GLFW_KEY_X =? GLFW_PRESS) eqn:Hx;
  [| destruct (glfwGetKey GLFW_KEY_W =? GLFW_PRESS) eqn:Hw;
  [| destruct (glfwGetKey GLFW_KEY_S =? GLFW_PRESS) eqn:Hs;
  [| destruct (glfwGetKey GLFW_KEY_A =? GLFW_PRESS) eqn:Ha;
  [| destruct (glfwGetKey GLFW_KEY_D =? GLFW_PRESS) eqn:Hd;
  [| destruct (glfwGetKey GLFW_KEY_UP =? GLFW_PRESS) eqn:Hup;
  [| destruct (glfwGetKey GLFW_KEY_DOWN =? GLFW_PRESS) eqn:Hdown;
  [| destruct (glfwGetKey GLFW_KEY_LEFT =? GLFW_PRESS) eqn:Hleft;
  [| destruct (glfwGetKey GLFW_KEY_RIGHT =? GLFW_PRESS) eqn:Hright]]]]]]]]].

(** X14. getKey follows the order of precedence of its docstring, ESC,
    X, W, S, A, D, UP, DOWN, LEFT, RIGHT: it returns the code of the
    first key of this list that is pressed, where an arrow key has the
    code of the letter it stands for, and 0 when none is pressed. *)
Theorem getKey_precedence (glfwGetKey : Key -> Z) :
  getKey glfwGetKey
  = match find (fun k => glfwGetKey k =? GLFW_PRESS) precedence with
    | Some k => key_code k
    | None => 0
    end.
Proof.
  unfold getKey, precedence. cbn [find].
  key_cases glfwGetKey; reflexivity.
Qed.

(** X15. getKey returns 0 exactly when none of the ten keys is pressed,
    and otherwise one of the six codes ESC (27), 'X', 'W', 'S', 'A',
    'D': an arrow key is never reported under a code of its own. *)
Theorem getKey_zero_iff_idle (glfwGetKey : Key -> Z) :
  (getKey glfwGetKey = 0 <-> forall k, glfwGetKey k <> GLFW_PRESS) /\
  In (getKey glfwGetKey) [0; 27; 88; 87; 83; 65; 68].
Proof.
  split; [split |].
  - intros Hzero k. unfold getKey in Hzero.
    key_cases glfwGetKey; try discriminate Hzero.
    destruct k; apply Z.eqb_neq; assumption.
  - intros Hidle. unfold getKey.
    key_cases glfwGetKey;
      try reflexivity;
      match goal with
      | Hp : (glfwGetKey ?k =? GLFW_PRESS) = true |- _ =>
          apply Z.eqb_eq in Hp; destruct (Hidle k Hp)
      end.
  - unfold getKey. key_cases glfwGetKey; cbn; tauto.
Qed.

(** X16. A letter key or ESC hides the arrow keys: whenever one of ESC,
    X, W, S, A, D is pressed, getKey returns what it returns with all
    four arrow keys released.  So DOWN held together with W reads as
    'W', although DOWN alone reads as 'S'. *)
Theorem getKey_letters_hide_arrows (glfwGetKey : Key -> Z) (k : Key) :
  is_arrow k = false -> glfwGetKey k = GLFW_PRESS ->
  getKey glfwGetKey = getKey (without_arrows glfwGetKey) /\
  getKey glfwGetKey <> 0.
Proof.
  intros Hletter Hpressed. apply Z.eqb_eq in Hpressed.
  unfold getKey, without_arrows. cbn [is_arrow].
  destruct k; try discriminate Hletter;
    key_cases glfwGetKey; (split; [reflexivity | discriminate]) || congruence.
Qed.

Lemma getKey_letters_hide_arrows_witness :
  getKey (fun k => match k with
                   | GLFW_KEY_W | GLFW_KEY_DOWN => GLFW_PRESS
                   | _ => GLFW_RELEASE
                   end)
  = getKey (without_arrows (fun k => match k with
                                     | GLFW_KEY_W | GLFW_KEY_DOWN => GLFW_PRESS
                                     | _ => GLFW_RELEASE
                                     end)) /\
  getKey (fun k => match k with
                   | GLFW_KEY_W | GLFW_KEY_DOWN => GLFW_PRESS
                   | _ => GLFW_RELEASE
                   end) <> 0.
Proof.
  apply (getKey_letters_hide_arrows _ GLFW_KEY_W); reflexivity.
Defined.

(** ** openWindow and the resize callback *)

(** X17. Whatever glfwInit and glfwCreateWindow answer, openWindow
    calls the two libraries in a valid order: GLFW only after a
    successful glfwInit, the window only once created, OpenGL only
    after the context of the window has been made current.
    glfwTerminate is called exactly when glfwInit succeeded and the
    window could not be created.  Failure is silent: s_window is the
    new window if both calls succeeded, NULL if the creation failed,
    and is left as it was, stale handle included, if glfwInit failed. *)
Theorem openWindow_call_order (glfwInit : bool) (glfwCreateWindow : option nat)
    (width height : Z) (title : string) (s_window : option nat)
    (ready : bool) (windows : list nat) (current : option nat) :
  let (calls, s_window') :=
    openWindow glfwInit glfwCreateWindow width height title s_window in
  well_ordered ready windows current calls = true /\
  (In GlfwTerminate calls <-> glfwInit = true /\ glfwCreateWindow = None) /\
  (existsb is_gl_call calls = true <->
   glfwInit = true /\ glfwCreateWindow <> None) /\
  s_window' = (if glfwInit then glfwCreateWindow else s_window).
Proof.
  destruct glfwInit, glfwCreateWindow as [window |]; cbn -[In].
  - rewrite Nat.eqb_refl, !orb_true_r. cbn -[In].
    split; [reflexivity |]. split; [| split; [| reflexivity]].
    + split; [| intros [_ Hnone]; discriminate Hnone].
      intros Hin. cbn in Hin.
      repeat (destruct Hin as [Hin | Hin]; [discriminate Hin |]). destruct Hin.
    + split; [intros _; split; [reflexivity | discriminate] | reflexivity].
  - rewrite orb_true_r.
    split; [reflexivity |]. split; [| split; [| reflexivity]].
    + split; [auto | intros _; cbn; auto].
    + split; [discriminate | intros [_ Hsome]; congruence].
  - split; [reflexivity |]. split; [| split; [| reflexivity]].
    + split; [| intros [Hinit _]; discriminate Hinit].
      intros Hin. cbn in Hin. destruct Hin as [Hin | []]. discriminate Hin.
    + split; [discriminate | intros [Hinit _]; discriminate Hinit].
  - split; [reflexivity |]. split; [| split; [| reflexivity]].
    + split; [| intros [Hinit _]; discriminate Hinit].
      intros Hin. cbn in Hin. destruct Hin as [Hin | []]. discriminate Hin.
    + split; [discriminate | intros [Hinit _]; discriminate Hinit].
Qed.

Lemma gl_run_openWindow (window : nat) (width height : Z) (title : string)
    (s_window : option nat) (v : View) :
  0 < width -> 0 < height ->
  gl_run (fst (openWindow true (Some window) width height title s_window)) v
  = {| viewport := (0, 0, width, height);
       matrix_mode := GL_MODELVIEW;
       projection := mmul identity (ortho 0 (IZR width) 0 (IZR height) 0 1);
       modelview := identity |}.
Proof.
  intros Hw Hh. cbn [openWindow negb fst gl_run fold_left gl_call].
  destruct (Z.ltb_spec width 0); [lia |].
  destruct (Z.ltb_spec height 0); [lia |].
  destruct (Z.eqb_spec 0 width); [lia |].
  destruct (Z.eqb_spec 0 height); [lia |].
  reflexivity.
Qed.

Lemma to_window_after_open (width height vw vh : Z) (px py : R) :
  0 < width -> 0 < height ->
  to_window
    {| viewport := (0, 0, vw, vh);
       matrix_mode := GL_MODELVIEW;
       projection := mmul identity (ortho 0 (IZR width) 0 (IZR height) 0 1);
       modelview := identity |} (px, py)
  = ((px * IZR vw / IZR width)%R, (py * IZR vh / IZR height)%R).
Proof.
  intros Hw Hh.
  assert (Hw0 : IZR width <> 0%R) by (apply not_0_IZR; lia).
  assert (Hh0 : IZR height <> 0%R) by (apply not_0_IZR; lia).
  unfold to_window, mvec, mmul, dot, column, identity, ortho.
  cbn [projection modelview viewport map combine fold_right fst snd nth seq].
  f_equal; field; lra.
Qed.

(** X18. After a successful openWindow (width, height) with positive
    width and height, whatever the viewport and the matrices were
    before, the vertex (px, py) is drawn at the window coordinates
    (px, py): the unit of the drawing routines is the pixel and the
    origin is the bottom left corner of the window (over the
    reals). *)
Theorem openWindow_pixel_coordinates (window : nat) (width height : Z)
    (title : string) (s_window : option nat) (v : View) (px py : R) :
  0 < width -> 0 < height ->
  let view := gl_run (fst (openWindow true (Some window) width height title
                             s_window)) v in
  viewport view = (0, 0, width, height) /\
  to_window view (px, py) = (px, py).
Proof.
  intros Hw Hh. cbv zeta. rewrite gl_run_openWindow by assumption.
  split; [reflexivity |].
  rewrite to_window_after_open by assumption.
  assert (Hw0 : IZR width <> 0%R) by (apply not_0_IZR; lia).
  assert (Hh0 : IZR height <> 0%R) by (apply not_0_IZR; lia).
  f_equal; field; assumption.
Qed.

Lemma openWindow_pixel_coordinates_witness :
  let view := gl_run (fst (openWindow true (Some 1%nat) 640 480 "demo" None))
                {| viewport := (0, 0, 0, 0); matrix_mode := GL_MODELVIEW;
                   projection := identity; modelview := identity |} in
  viewport view = (0, 0, 640, 480) /\
  to_window view (100%R, 50%R) = (100%R, 50%R).
Proof.
  apply (openWindow_pixel_coordinates 1 640 480 "demo" None); lia.
Defined.

(** X19. framebuffer_size_callback moves the viewport and leaves the
    projection of openWindow in place.  After openWindow (width,
    height) and a resize to (width', height') the vertex (px, py) is
    drawn at (px width' / width, py height' / height): the drawing is
    stretched with the window, its unit is no longer the pixel (over
    the reals). *)
Theorem resize_stretches_drawing (window : nat) (width height width' height' : Z)
    (title : string) (s_window : option nat) (v : View) (px py : R) :
  0 < width -> 0 < height -> 0 <= width' -> 0 <= height' ->
  let view :=
    gl_run (fst (openWindow true (Some window) width height title s_window)
            ++ framebuffer_size_callback window width' height') v in
  viewport view = (0, 0, width', height') /\
  projection view = mmul identity (ortho 0 (IZR width) 0 (IZR height) 0 1) /\
  to_window view (px, py)
  = ((px * IZR width' / IZR width)%R, (py * IZR height' / IZR height)%R).
Proof.
  intros Hw Hh Hw' Hh'. cbv zeta.
  unfold gl_run. rewrite fold_left_app. fold (gl_run
    (fst (openWindow true (Some window) width height title s_window)) v).
  rewrite gl_run_openWindow by assumption.
  cbn [framebuffer_size_callback fold_left gl_call].
  destruct (Z.ltb_spec width' 0); [lia |].
  destruct (Z.ltb_spec height' 0); [lia |].
  cbn [orb viewport matrix_mode projection modelview].
  split; [reflexivity |]. split; [reflexivity |].
  apply to_window_after_open; assumption.
Qed.

Lemma resize_stretches_drawing_witness :
  let view :=
    gl_run (fst (openWindow true (Some 1%nat) 640 480 "demo" None)
            ++ framebuffer_size_callback 1 1280 960)
      {| viewport := (0, 0, 0, 0); matrix_mode := GL_MODELVIEW;
         projection := identity; modelview := identity |} in
  viewport view = (0, 0, 1280, 960) /\
  projection view = mmul identity (ortho 0 (IZR 640) 0 (IZR 480) 0 1) /\
  to_window view (100%R, 50%R)
  = ((100 * IZR 1280 / IZR 640)%R, (50 * IZR 960 / IZR 480)%R).
Proof.
  apply (resize_stretches_drawing 1 640 480 1280 960 "demo" None); lia.
Defined.

(** X20. openWindow gives its caller no sign of failure, and the
    routines that follow rely on s_window.  Started from scratch, the
    sequence openWindow, windowClosing, windowPaint, getEvents, getTime
    calls GLFW in a valid order exactly when glfwInit and
    glfwCreateWindow both succeeded; otherwise GLFW is called before
    being initialised or with the NULL handle.  cleanup does not reset
    s_window: windowClosing after cleanup always calls GLFW out of
    order, while a second openWindow after cleanup is in order. *)
Theorem session_call_order (glfwInit : bool) (glfwCreateWindow : option nat)
    (width height : Z) (title : string) :
  let (calls, s_window) :=
    openWindow glfwInit glfwCreateWindow width height title None in
  (well_ordered false [] None
     (calls ++ windowClosing s_window ++ windowPaint s_window ++ getEvents ++ getTime)
   = true <-> glfwInit = true /\ glfwCreateWindow <> None) /\
  well_ordered false [] None (calls ++ cleanup ++ windowClosing s_window) = false /\
  (forall window',
     let (calls', s_window') :=
       openWindow true (Some window') width height title s_window in
     well_ordered false [] None
       (calls ++ cleanup ++ calls' ++ windowClosing s_window' ++ cleanup) = true).
Proof.
  destruct glfwInit, glfwCreateWindow as [window |]; cbn.
  - rewrite !Nat.eqb_refl. cbn.
    split; [split; [intros _; split; [reflexivity | discriminate] | reflexivity] |].
    split; [reflexivity |]. intros window'. rewrite !Nat.eqb_refl. reflexivity.
  - split; [split; [discriminate | intros [_ Hsome]; congruence] |].
    split; [reflexivity |]. intros window'. rewrite !Nat.eqb_refl. reflexivity.
  - split; [split; [discriminate | intros [Hinit _]; discriminate Hinit] |].
    split; [reflexivity |]. intros window'. rewrite !Nat.eqb_refl. reflexivity.
  - split; [split; [discriminate | intros [Hinit _]; discriminate Hinit] |].
    split; [reflexivity |]. intros window'. rewrite !Nat.eqb_refl. reflexivity.
Qed.

(** ** The colour the routines leave behind *)

Lemma paint_color {F : Type} {FA : FloatArith F} {H : Header}
    (pts : list (F * F)) (st : GLState) :
  pts <> [] ->
  gl_color (paint pts st) = channels White /\ gl_vertex_array (paint pts st) = false.
Proof.
  intros Hne. destruct (exists_last Hne) as (ps & p & ->).
  rewrite paint_app. split; reflexivity.
Qed.

(** X21. When drawText returns, the point size, the smoothing flag and
    the attribute stack of the context are what they were.  The colour
    is not: it is the colour given to drawText if no point was drawn,
    and the default colour of drawPoint as soon as one point was
    drawn. *)
Theorem drawText_leaves_default_color {F : Type} {FA : FloatArith F} {H : Header}
    (budget : nat) (x y : F) (text : string) (size color : Z) (st st' : GLState) :
  drawText budget x y text size color st = Done (tt, st') ->
  gl_point_size st' = gl_point_size st /\
  gl_point_smooth st' = gl_point_smooth st /\
  gl_attrib_stack st' = gl_attrib_stack st /\
  (issued st st' = [] -> gl_color st' = channels color) /\
  (issued st st' <> [] -> gl_color st' = channels White).
Proof.
  intros Hrun.
  destruct (drawText_uniform (fun _ => True) budget x y text size color I)
    as [(pts & Hdone) | (e & _ & Hfault)];
    [intros ch _ i e _ _; exact I | | rewrite Hfault in Hrun; discriminate].
  rewrite Hdone in Hrun. injection Hrun as <-.
  destruct (paint_frame pts (with_color (channels color) st))
    as (Hsize & Hsmooth & Hstack & _).
  rewrite Hsize, Hsmooth, Hstack, issued_paint.
  split; [reflexivity |]. split; [reflexivity |]. split; [reflexivity |]. split.
  - intros Hnil. apply map_eq_nil in Hnil. subst pts. reflexivity.
  - intros Hsome. apply paint_color. intros ->. apply Hsome. reflexivity.
Qed.

Lemma drawText_leaves_default_color_witness :
  exists st' : GLState (F:=R),
    gl_point_size st' = gl_point_size (F:=R) initial_state /\
    gl_point_smooth st' = gl_point_smooth (F:=R) initial_state /\
    gl_attrib_stack st' = gl_attrib_stack (F:=R) initial_state /\
    (issued initial_state st' = [] -> gl_color st' = channels 0xFF0000) /\
    (issued initial_state st' <> [] -> gl_color st' = channels 0xFFFFFF).
Proof.
  eexists.
  apply (drawText_leaves_default_color (H:=sample_header) 2 0%R 0%R "A!"%string 1
           0xFF0000 initial_state _ (sample_text_run 0xFF0000 initial_state)).
Defined.

(** X22. drawCircle honours its colour argument: for sides from -1 to
    2^30 - 3 the fan is issued in the colour decoded from it, which is
    also the colour the context is left with; the point attributes and
    the attribute stack are not touched, and the vertex array is left
    disabled. *)
Theorem drawCircle_color_and_frame {F : Type} {FA : FloatArith F} {FT : FloatTrig F}
    (x y radius : F) (color sides : Z) (st : GLState) :
  -1 <= sides <= 2 ^ 30 - 3 ->
  exists st',
    drawCircle x y radius color sides st = Done (tt, st') /\
    map dc_color (issued st st') = [channels color] /\
    gl_color st' = channels color /\
    gl_vertex_array st' = false /\
    gl_point_size st' = gl_point_size st /\
    gl_point_smooth st' = gl_point_smooth st /\
    gl_attrib_stack st' = gl_attrib_stack st.
Proof.
  intros Hsides. exists (after_circle x y radius sides color st).
  split; [apply drawCircle_run; exact Hsides |].
  unfold issued. rewrite issued_after_circle. repeat split.
Qed.

Lemma drawCircle_color_and_frame_witness :
  exists st' : GLState (F:=R),
    drawCircle 0%R 0%R 1%R 0xFF8040 6 initial_state = Done (tt, st') /\
    map dc_color (issued initial_state st') = [channels 0xFF8040] /\
    gl_color st' = channels 0xFF8040 /\
    gl_vertex_array st' = false /\
    gl_point_size st' = gl_point_size (F:=R) initial_state /\
    gl_point_smooth st' = gl_point_smooth (F:=R) initial_state /\
    gl_attrib_stack st' = gl_attrib_stack (F:=R) initial_state.
Proof.
  apply (drawCircle_color_and_frame 0%R 0%R 1%R 0xFF8040 6 initial_state). lia.
Defined.

(** ** drawText: no point is drawn twice *)

Lemma NoDup_map_in {A B : Type} (f : A -> B) (l : list A) :
  List.NoDup l ->
  (forall a a', In a l -> In a' l -> f a = f a' -> a = a') ->
  List.NoDup (map f l).
Proof.
  induction 1 as [|a l Hnotin Hnodup IH]; intros Hinj; cbn [map]; constructor.
  - intros Hin. apply in_map_iff in Hin. destruct Hin as (a' & Heq & Hin).
    apply Hnotin. rewrite (Hinj a a'); [exact Hin | left; reflexivity | right; exact Hin |].
    symmetry. exact Heq.
  - apply IH. intros b b' Hb Hb'. apply Hinj; right; assumption.
Qed.

Lemma NoDup_flat_map_in {A B : Type} (f : A -> list B) (l : list A) :
  List.NoDup l ->
  (forall a, In a l -> List.NoDup (f a)) ->
  (forall a a' b, In a l -> In a' l -> In b (f a) -> In b (f a') -> a = a') ->
  List.NoDup (flat_map f l).
Proof.
  induction 1 as [|a l Hnotin Hnodup IH]; intros Hall Hdisj; cbn [flat_map].
  - constructor.
  - apply List.NoDup_app.
    + apply Hall. left. reflexivity.
    + apply IH.
      * intros b Hb. apply Hall. right. exact Hb.
      * intros b b' p Hb Hb'. apply Hdisj; right; assumption.
    + intros p Hp Hp'. apply in_flat_map in Hp'. destruct Hp' as (a' & Ha' & Hp').
      apply Hnotin. rewrite (Hdisj a a' p); [exact Ha' | left; reflexivity | right; exact Ha' | |];
        assumption.
Qed.

(* a position b * size + j with j below size determines b and j *)
Lemma cell_index (size : Z) (b j b' j' : nat) :
  (j < Z.to_nat size)%nat -> (j' < Z.to_nat size)%nat ->
  (INR b * IZR size + INR j = INR b' * IZR size + INR j')%R ->
  b = b' /\ j = j'.
Proof.
  intros Hj Hj' Heq.
  assert (Hsize : IZR size = INR (Z.to_nat size))
    by (rewrite INR_IZR_INZ, Z2Nat.id by lia; reflexivity).
  rewrite Hsize in Heq. rewrite <- !mult_INR, <- !plus_INR in Heq.
  apply INR_eq in Heq.
  assert (b = b') as ->.
  { destruct (Nat.lt_trichotomy b b') as [Hlt | [Heq' | Hlt]]; [nia | exact Heq' | nia]. }
  split; [reflexivity | lia].
Qed.

Section TextNoDup.
Context {H : Header}.
Variable size : Z.
#[local] Open Scope R_scope.

Lemma NoDup_block (xpos ypos : R) : List.NoDup (block size xpos ypos).
Proof.
  unfold block. apply NoDup_flat_map_in.
  - apply seq_NoDup.
  - intros i _. unfold block_row. apply NoDup_map_in; [apply seq_NoDup |].
    intros j j' _ _ Heq. injection Heq as Heq. apply INR_eq. lra.
  - intros i i' p _ _ Hp Hp'. unfold block_row in Hp, Hp'.
    apply in_map_iff in Hp, Hp'.
    destruct Hp as (j & <- & _). destruct Hp' as (j' & Heq & _).
    injection Heq as _ Heq. apply INR_eq. lra.
Qed.

Lemma NoDup_row_points (byte : Z) (x ypos : R) :
  List.NoDup (row_points size byte x ypos).
Proof.
  unfold row_points. apply NoDup_flat_map_in.
  - apply seq_NoDup.
  - intros b _. destruct (Z.testbit byte (7 - Z.of_nat b)); [apply NoDup_block | constructor].
  - intros b b' p _ _ Hp Hp'.
    destruct (Z.testbit byte (7 - Z.of_nat b)); [| destruct Hp].
    destruct (Z.testbit byte (7 - Z.of_nat b')); [| destruct Hp'].
    apply in_block in Hp, Hp'.
    destruct Hp as (i & j & _ & Hj & ->). destruct Hp' as (i' & j' & _ & Hj' & Heq).
    injection Heq as Heq _.
    apply (cell_index size b j b' j' Hj Hj'). lra.
Qed.

Lemma NoDup_glyph_points (ch : ascii) (x y : R) :
  List.NoDup (glyph_points size ch x y).
Proof.
  unfold glyph_points. apply NoDup_flat_map_in.
  - apply seq_NoDup.
  - intros r _. apply NoDup_row_points.
  - intros r r' p _ _ Hp Hp'. apply in_row_points in Hp, Hp'.
    destruct Hp as (b & _ & _ & Hp). destruct Hp' as (b' & _ & _ & Hp').
    apply in_block in Hp, Hp'.
    destruct Hp as (i & j & Hi & _ & ->). destruct Hp' as (i' & j' & Hi' & _ & Heq).
    injection Heq as _ Heq.
    apply (cell_index size r i' r' i Hi' Hi). lra.
Qed.

Lemma NoDup_text_points (text : string) (x y : R) :
  List.NoDup (text_points size text x y).
Proof.
  revert x. induction text as [|c rest IH]; intros x; cbn [text_points].
  - constructor.
  - apply List.NoDup_app; [apply NoDup_glyph_points | apply IH |].
    intros p Hp Hp'. apply in_glyph_points in Hp.
    destruct Hp as (r & b & i & j & _ & Hb & _ & Hj & _ & ->).
    apply in_text_points in Hp'. destruct Hp' as (k & ch & _ & Hp').
    apply in_glyph_points in Hp'.
    destruct Hp' as (r' & b' & i' & j' & _ & _ & _ & _ & _ & Heq).
    injection Heq as Heq _.
    assert (Hsize : IZR size = INR (Z.to_nat size))
      by (rewrite INR_IZR_INZ, Z2Nat.id by lia; reflexivity).
    pose proof (pos_INR k) as Hk. pose proof (pos_INR b') as Hb'.
    pose proof (pos_INR j') as Hj'. pose proof (pos_INR (Z.to_nat size)) as Hn.
    pose proof (le_INR b 7 ltac:(lia)) as Hle. simpl in Hle.
    pose proof (lt_INR j (Z.to_nat size) Hj) as Hlt.
    rewrite Hsize in Heq.
    assert (0 <= INR (Z.to_nat size) * INR k) by (apply Rmult_le_pos; assumption).
    assert (0 <= INR b' * INR (Z.to_nat size)) by (apply Rmult_le_pos; assumption).
    assert (INR b * INR (Z.to_nat size) <= 7 * INR (Z.to_nat size))
      by (apply Rmult_le_compat_r; [assumption | lra]).
    nra.
Qed.

End TextNoDup.

(** X23. For integer coordinates within 2^24 and every character in
    the table, drawText draws no point twice: the blocks of different
    bits, rows and characters do not overlap, whatever the size. *)
Theorem drawText_no_point_twice {H : Header} (budget : nat) (x y : Z)
    (text : string) (size color : Z) (st : GLState) :
  exact_text_range x y size (String.length text) ->
  (Z.to_nat size < budget)%nat ->
  (forall ch, In ch (list_ascii_of_string text) -> readable ch) ->
  exists pts,
    drawn (drawText budget (IZR x) (IZR y) text size color) st = Done pts /\
    length pts = (ink text * (Z.to_nat size * Z.to_nat size))%nat /\
    List.NoDup pts.
Proof.
  intros _ Hbudget Hread. exists (text_points size text (IZR x) (IZR y)).
  split; [apply drawn_text; assumption |].
  split; [apply length_text_points | apply NoDup_text_points].
Qed.

Lemma drawText_no_point_twice_witness :
  exists pts,
    drawn (drawText (H:=sample_header) 3 (IZR 0) (IZR 0) "A!"%string 2 0xFFFFFF)
      initial_state = Done pts /\
    length pts = 176%nat /\ List.NoDup pts.
Proof.
  apply (drawText_no_point_twice (H:=sample_header) 3 0 0 "A!"%string 2 0xFFFFFF
           initial_state).
  - unfold exact_text_range, exact24. cbn [String.length]. lia.
  - simpl. lia.
  - exact sample_text_readable.
Defined.

(** ** drawCircle: the largest side count *)

(** X24. drawCircle has a largest side count.  Up to sides = 2^30 - 3
    the routine returns, having issued one fan of sides + 2 vertices.
    From sides = 2^30 - 2 on an int expression of the routine exceeds
    INT_MAX, numberOfVertices * 2 once the rim has been computed or
    sides + 2 on the first line, and nothing is drawn. *)
Theorem drawCircle_side_limit {F : Type} {FA : FloatArith F} {FT : FloatTrig F}
    (x y radius : F) (color sides : Z) (st : GLState) :
  (-1 <= sides <= 2 ^ 30 - 3 ->
   exists st',
     drawCircle x y radius color sides st = Done (tt, st') /\
     map (fun call => Z.of_nat (length (dc_vertices call))) (issued st st')
     = [sides + 2]) /\
  (2 ^ 30 - 2 <= sides ->
   exists z, INT_MAX < z /\
     drawCircle x y radius color sides st = Fault (IntOverflow z)).
Proof.
  split.
  - intros Hsides. exists (after_circle x y radius sides color st).
    split; [apply drawCircle_run; exact Hsides |].
    unfold issued. rewrite issued_after_circle. cbn [map dc_vertices].
    rewrite length_fan by lia. reflexivity.
  - intros Hsides. eexists. split; [| apply drawCircle_overflow; exact Hsides].
    unfold INT_MAX. destruct (Z.leb_spec (sides + 2) (2 ^ 31 - 1)); lia.
Qed.

Lemma drawCircle_side_limit_witness :
  (exists st',
     drawCircle 0%R 0%R 1%R 0xFFFFFF (2 ^ 30 - 3) initial_state = Done (tt, st') /\
     map (fun call => Z.of_nat (length (dc_vertices call))) (issued initial_state st')
     = [2 ^ 30 - 3 + 2]) /\
  (exists z, INT_MAX < z /\
     drawCircle 0%R 0%R 1%R 0xFFFFFF (2 ^ 30 - 2) initial_state
     = Fault (IntOverflow z)).
Proof.
  split.
  - apply (proj1 (drawCircle_side_limit 0%R 0%R 1%R 0xFFFFFF (2 ^ 30 - 3)
                    initial_state)). lia.
  - apply (proj2 (drawCircle_side_limit 0%R 0%R 1%R 0xFFFFFF (2 ^ 30 - 2)
                    initial_state)). lia.
Defined.
